(** * MQTT output of rtl_433 (src/output_mqtt.c)

    A shallow embedding of the topic template engine, the in-flight
    publish list, the MQTT client and the MQTT printer, followed by the
    properties of the specification that were checked against them.

    Conventions.
    - A C string is the list of its characters before the terminating
      NUL ([cstring]), none of which is NUL; a [char const *] walking a
      string is the list of the characters that remain.
    - The buffers that receive a topic are taken large enough: the
      source writes to them without a check of their size.
    - A [double] is a primitive binary64 float: the deadlines are added
      and compared as the machine does, rounding included.
    - [exit(1)] after a message on stderr is the result [Exit], carrying
      the message; a read or a write outside an object, and a signed
      overflow, are [Undefined].
    - Calls into mongoose (mg_mqtt_publish, mg_set_timer, mg_connect_opt)
      and lines printed to stderr are recorded, in order, in a trace of
      [effect]s. *)

From Stdlib Require Import ZArith List Ascii String Bool Lia.
From Stdlib Require Import Floats.
From Stdlib Require Import DecimalString.
From stdpp Require Import base list.
Import ListNotations.

Set Warnings "-inexact-float,-register-all,-abstract-large-number".

Local Open Scope Z_scope.

(** ** C strings and characters *)

Definition cstring := list ascii.

Definition str (s : string) : cstring := list_ascii_of_string s.

Definition code (c : ascii) : N := N_of_ascii c.

(** [lo <= c && c <= hi]; the source writes the negation,
    [c < lo || c > hi]. For the ranges used (letters and digits) the
    answer does not depend on whether [char] is signed. *)
Definition in_range (lo hi c : ascii) : bool :=
  ((code lo <=? code c) && (code c <=? code hi))%N.

Definition char_eqb (a b : ascii) : bool := Ascii.eqb a b.

Fixpoint strcmp_eq (a b : cstring) : bool :=
  match a, b with
  | [], [] => true
  | x :: a', y :: b' => char_eqb x y && strcmp_eq a' b'
  | _, _ => false
  end.

(** [strncmp(s1, s2, n) == 0]: at most [n] characters are compared and
    the comparison stops at a terminating NUL. *)
Fixpoint strncmp_eq (s1 s2 : cstring) (n : nat) {struct n} : bool :=
  match n with
  | O => true
  | S n' =>
      match s1, s2 with
      | [], [] => true
      | x :: s1', y :: s2' => char_eqb x y && strncmp_eq s1' s2' n'
      | _, _ => false
      end
  end.

(** [sprintf("%d", v)]. *)
Definition sprintf_d (v : Z) : cstring :=
  str (NilZero.string_of_int (Z.to_int v)).

(** ** Results *)

Inductive fatal : Type :=
| Unterminated_token
| Unknown_token (name : cstring)
| Fatal_realloc
| Fatal_calloc
| Connect_failed
| Usechannel_removed
| Invalid_key (key : cstring).

Inductive result (A : Type) : Type :=
| Done (a : A)
| Exit (why : fatal)
| Undefined.

Arguments Done {A} a.
Arguments Exit {A} why.
Arguments Undefined {A}.

(** ** Event records (data.h) *)

Inductive data_value : Type :=
| DATA_DATA (fields : list (cstring * data_value))
| DATA_INT (v_int : Z)
| DATA_DOUBLE (v_dbl : float)
| DATA_STRING (v_ptr : cstring)
| DATA_ARRAY (values : list data_value).

Definition data_field : Type := (cstring * data_value)%type.

(** A [data_t *] chain, in order. *)
Definition data_t : Type := list data_field.

(** ** Traces *)

Inductive log_line : Type :=
| Log_publishing (mid : Z) (len : nat)
| Log_acknowledge (mid : Z) (len : nat)
| Log_resending (n : Z) (mid : Z)
| Log_unknown_ack (mid : Z)
| Warn_strdup
| Warn_malloc
| Log_connected
| Log_connect_error (status : Z)
| Log_connack (ret_code : Z)
| Log_connection_failed
| Log_connect_failed (address : cstring)
| Log_other.

(** [MG_MQTT_QOS(qos) | (retain ? MG_MQTT_RETAIN : 0)], kept as its two
    parts (the macros are mongoose's). *)
Record publish_flags_t : Type := {
  flags_qos : Z;
  flags_retain : bool
}.

Inductive effect : Type :=
| Stderr (line : log_line)
| Mg_mqtt_publish (topic : cstring) (mid : Z) (flags : publish_flags_t) (payload : cstring)
| Mg_set_timer (t : float)
| Mg_connect_opt (address : cstring)
| Mg_set_protocol_mqtt
| Mg_send_mqtt_handshake_opt (client_id : cstring).

(** A computation: its result and what it did, in order. After [Exit]
    or [Undefined] nothing more happens. *)
Definition M (A : Type) : Type := (result A * list effect)%type.

Definition ret {A : Type} (a : A) : M A := (Done a, []).

Definition bind {A B : Type} (m : M A) (f : A -> M B) : M B :=
  match m with
  | (Done a, t) => let '(r, t') := f a in (r, t ++ t')
  | (Exit why, t) => (Exit why, t)
  | (Undefined, t) => (Undefined, t)
  end.

Definition emit (e : effect) : M unit := (Done tt, [e]).

Definition fail_exit {A : Type} (why : fatal) : M A := (Exit why, []).

Definition undefined {A : Type} : M A := (Undefined, []).

Notation "'do' x <- m ; k" := (bind m (fun x => k))
  (at level 10, x name, m at level 100, k at level 200).
Notation "'run' m ; k" := (bind m (fun _ => k))
  (at level 10, m at level 100, k at level 200).

(** ** MQTT transmission list *)

(** Times are doubles, as mg_time() gives them (in seconds): the
    deadlines are sums of doubles, rounded as binary64 rounds them, and
    are compared as doubles. *)
Record mqtt_msg_t : Type := {
  topic : cstring;
  msg : cstring;
  timeout : float;
  retries : Z;
  mid : Z
}.

(** [elems] holds the [len] live elements, [len] is [length elems], and
    [size] is the number of elements allocated ([elems] is NULL exactly
    when [size] is 0). *)
Record inflight_t : Type := {
  elems : list mqtt_msg_t;
  size : nat
}.

Definition len (list : inflight_t) : nat := length (elems list).

(** What the allocator answers during one inflight_add: whether
    realloc, the strdup of the topic and the strdup of the message
    return a block. *)
Record alloc_t : Type := {
  realloc_ok : bool;
  strdup_topic_ok : bool;
  strdup_msg_ok : bool
}.

Definition alloc_succeeds : alloc_t :=
  {| realloc_ok := true; strdup_topic_ok := true; strdup_msg_ok := true |}.

(** FATAL_REALLOC is a macro of fatal.h, which is not among the sources:
    it is taken to print its message and call exit(1), as the FATAL_
    macros do; inflight_ensure_size has no other path for a failed
    realloc and goes on to use the new block. *)
Definition inflight_ensure_size (list : inflight_t) (min_size : nat)
    (mem : alloc_t) : M inflight_t :=
  if (size list =? 0)%nat || (size list <? min_size)%nat then
    if realloc_ok mem then ret {| elems := elems list; size := min_size |}
    else fail_exit Fatal_realloc
  else ret list.

Definition inflight_add (list : inflight_t) (topic : cstring) (mid : Z)
    (msg : cstring) (mg_time : float) (mem : alloc_t) : M inflight_t :=
  do list <- (if (size list <=? len list)%nat then
             inflight_ensure_size list
               (if (size list <? 8)%nat then 8%nat
                else (size list + size list / 2)%nat) mem
           else ret list);
  if negb (strdup_topic_ok mem) then
    run emit (Stderr Warn_strdup); ret list
  else if negb (strdup_msg_ok mem) then
    run emit (Stderr Warn_strdup); ret list
  else
    let list' :=
      {| elems := elems list ++
                  [{| topic := topic; msg := msg;
                      timeout := (mg_time + 1.2)%float;
                      retries := 0; mid := mid |}];
         size := size list |} in
    run emit (Stderr (Log_publishing mid (len list'))); ret list'.

(** Swap with the last element and shrink. *)
Definition inflight_remove_at (list : inflight_t) (idx : nat) : inflight_t :=
  if (len list <=? idx)%nat then list
  else
    let len' := (len list - 1)%nat in
    let elems' :=
      if (0 <? len')%nat then
        match elems list !! len' with
        | Some last => <[idx := last]> (elems list)
        | None => elems list
        end
      else elems list in
    {| elems := take len' elems'; size := size list |}.

(** The index of the first element with this [mid], from index [i] on. *)
Fixpoint find_mid (l : list mqtt_msg_t) (m : Z) (i : nat) : option nat :=
  match l with
  | [] => None
  | e :: l' => if mid e =? m then Some i else find_mid l' m (S i)
  end.

(** The returned [int] is the index, or -1 (an index that the
    conversion to [int] would change needs a list of 2^31 elements). *)
Definition inflight_remove (list : inflight_t) (m : Z) : M (Z * inflight_t) :=
  match find_mid (elems list) m O with
  | Some i =>
      let list' := inflight_remove_at list i in
      run emit (Stderr (Log_acknowledge m (len list')));
      ret (Z.of_nat i, list')
  | None => ret (-1, list)
  end.

Definition inflight_clear (list : inflight_t) : inflight_t :=
  {| elems := []; size := size list |}.

Definition inflight_free (list : inflight_t) : inflight_t :=
  {| elems := []; size := O |}.

(** ** MQTT client abstraction *)

(** Of a [struct mg_connection], whether [proto_handler] is set. *)
Record mg_connection : Type := {
  proto_handler : bool
}.

Record mqtt_client_t : Type := {
  conn : option mg_connection;
  prev_status : Z;
  address : cstring;
  client_id : cstring;
  message_id : Z;
  publish_flags : publish_flags_t;
  qos : Z;
  inflight : inflight_t
}.

Definition set_conn (ctx : mqtt_client_t) (c : option mg_connection) : mqtt_client_t :=
  {| conn := c; prev_status := prev_status ctx; address := address ctx;
     client_id := client_id ctx; message_id := message_id ctx;
     publish_flags := publish_flags ctx; qos := qos ctx;
     inflight := inflight ctx |}.

Definition set_prev_status (ctx : mqtt_client_t) (s : Z) : mqtt_client_t :=
  {| conn := conn ctx; prev_status := s; address := address ctx;
     client_id := client_id ctx; message_id := message_id ctx;
     publish_flags := publish_flags ctx; qos := qos ctx;
     inflight := inflight ctx |}.

Definition set_message_id (ctx : mqtt_client_t) (m : Z) : mqtt_client_t :=
  {| conn := conn ctx; prev_status := prev_status ctx; address := address ctx;
     client_id := client_id ctx; message_id := m;
     publish_flags := publish_flags ctx; qos := qos ctx;
     inflight := inflight ctx |}.

Definition set_inflight (ctx : mqtt_client_t) (l : inflight_t) : mqtt_client_t :=
  {| conn := conn ctx; prev_status := prev_status ctx; address := address ctx;
     client_id := client_id ctx; message_id := message_id ctx;
     publish_flags := publish_flags ctx; qos := qos ctx;
     inflight := l |}.

(** [ctx->conn && ctx->conn->proto_handler] *)
Definition connected (ctx : mqtt_client_t) : bool :=
  match conn ctx with
  | Some c => proto_handler c
  | None => false
  end.

Definition INT_MAX : Z := 2147483647.

(** The "check inflight" loop of mqtt_client_timer. *)
Fixpoint timer_loop (flags : publish_flags_t) (now : float)
    (l : list mqtt_msg_t) : M (list mqtt_msg_t) :=
  match l with
  | [] => ret []
  | elem :: l' =>
      do elem' <- (if PrimFloat.ltb (timeout elem) now then
                  if retries elem <? INT_MAX then
                    run emit (Stderr (Log_resending (retries elem + 1) (mid elem)));
                    run emit (Mg_mqtt_publish (topic elem) (mid elem) flags (msg elem));
                    ret {| topic := topic elem; msg := msg elem;
                           timeout := (now + 1.2)%float;
                           retries := retries elem + 1; mid := mid elem |}
                  else undefined
                else ret elem);
      do rest <- timer_loop flags now l';
      ret (elem' :: rest)
  end.

(** The MG_EV_TIMER case: [now] is the event's time, [mg_time] the
    clock read for the next timer. *)
Definition mqtt_client_timer (ctx : mqtt_client_t) (now mg_time : float) : M mqtt_client_t :=
  run emit (Mg_set_timer (mg_time + 0.5)%float);
  if negb (connected ctx) then ret ctx
  else
    do l <- timer_loop (publish_flags ctx) now (elems (inflight ctx));
    ret (set_inflight ctx {| elems := l; size := size (inflight ctx) |}).

Definition mqtt_client_publish (ctx : mqtt_client_t) (topic str : cstring)
    (mg_time : float) (mem : alloc_t) : M mqtt_client_t :=
  let ctx := set_message_id ctx ((message_id ctx + 1) mod 65536) in
  do ctx <- (if 0 <? qos ctx then
            do l <- inflight_add (inflight ctx) topic (message_id ctx) str mg_time mem;
            ret (set_inflight ctx l)
          else ret ctx);
  if negb (connected ctx) then ret ctx
  else
    run emit (Mg_mqtt_publish topic (message_id ctx) (publish_flags ctx) str);
    ret ctx.

(** The events handled by mqtt_client_event, for a context that is not
    NULL and a connection that is the context's. MG_EV_CLOSE carries
    whether the mg_connect_opt of the reconnect returns a connection. *)
Inductive mg_event : Type :=
| MG_EV_CONNECT (connect_status : Z)
| MG_EV_MQTT_CONNACK (connack_ret_code : Z)
| MG_EV_MQTT_PUBREC (msg_id : Z)
| MG_EV_MQTT_PUBCOMP (msg_id : Z)
| MG_EV_MQTT_PUBREL (msg_id : Z)
| MG_EV_MQTT_PUBACK (msg_id : Z)
| MG_EV_MQTT_SUBACK
| MG_EV_MQTT_PUBLISH
| MG_EV_CLOSE (reconnected : bool)
| MG_EV_POLL.

Definition mqtt_client_event (ctx : mqtt_client_t) (ev : mg_event) : M mqtt_client_t :=
  match ev with
  | MG_EV_CONNECT connect_status =>
      do ctx <- (if connect_status =? 0 then
                run emit (Stderr Log_connected);
                run emit Mg_set_protocol_mqtt;
                run emit (Mg_send_mqtt_handshake_opt (client_id ctx));
                ret (set_conn ctx
                       (match conn ctx with
                        | Some _ => Some {| proto_handler := true |}
                        | None => None
                        end))
              else if negb (prev_status ctx =? connect_status) then
                run emit (Stderr (Log_connect_error connect_status)); ret ctx
              else ret ctx);
      ret (set_prev_status ctx connect_status)
  | MG_EV_MQTT_CONNACK code => run emit (Stderr (Log_connack code)); ret ctx
  | MG_EV_MQTT_PUBREC _ | MG_EV_MQTT_PUBCOMP _ | MG_EV_MQTT_PUBREL _
  | MG_EV_MQTT_SUBACK | MG_EV_MQTT_PUBLISH =>
      run emit (Stderr Log_other); ret ctx
  | MG_EV_MQTT_PUBACK m =>
      do r <- inflight_remove (inflight ctx) m;
      let ctx := set_inflight ctx (snd r) in
      if 0 <=? fst r then ret ctx
      else run emit (Stderr (Log_unknown_ack m)); ret ctx
  | MG_EV_CLOSE reconnected =>
      run (if prev_status ctx =? 0 then emit (Stderr Log_connection_failed) else ret tt);
      run emit (Mg_connect_opt (address ctx));
      if reconnected then ret (set_conn ctx (Some {| proto_handler := false |}))
      else
        run emit (Stderr (Log_connect_failed (address ctx)));
        ret (set_conn ctx None)
  | MG_EV_POLL => ret ctx
  end.

(** ** Topic helpers *)

(** The test of mqtt_sanitize_topic: the character is left as it is. *)
Definition topic_char_ok (c : ascii) : bool :=
  char_eqb c "-" || char_eqb c "." || in_range "A" "Z" c
  || in_range "a" "z" c || in_range "0" "9" c.

Definition sanitize_char (c : ascii) : ascii :=
  if topic_char_ok c then c else "_"%char.

Fixpoint mqtt_sanitize_topic (topic : cstring) : cstring :=
  match topic with
  | [] => []
  | c :: p => sanitize_char c :: mqtt_sanitize_topic p
  end.

(** [append_topic(topic, data)]: [topic] is what has been written so far,
    the result what is written on return. A value of another type writes
    nothing (a line goes to stderr). *)
Definition append_topic (topic : cstring) (data : data_field) : cstring :=
  match snd data with
  | DATA_STRING v_ptr => topic ++ mqtt_sanitize_topic v_ptr
  | DATA_INT v_int => topic ++ sprintf_d v_int
  | _ => topic
  end.

(** The well-known top level keys collected by expand_topic. *)
Record known_keys : Type := {
  data_type : option data_field;
  data_model : option data_field;
  data_subtype : option data_field;
  data_channel : option data_field;
  data_id : option data_field;
  data_protocol : option data_field
}.

Definition no_keys : known_keys :=
  {| data_type := None; data_model := None; data_subtype := None;
     data_channel := None; data_id := None; data_protocol := None |}.

Definition collect_key (k : known_keys) (d : data_field) : known_keys :=
  if strcmp_eq (fst d) (str "type") then
    {| data_type := Some d; data_model := data_model k;
       data_subtype := data_subtype k; data_channel := data_channel k;
       data_id := data_id k; data_protocol := data_protocol k |}
  else if strcmp_eq (fst d) (str "model") then
    {| data_type := data_type k; data_model := Some d;
       data_subtype := data_subtype k; data_channel := data_channel k;
       data_id := data_id k; data_protocol := data_protocol k |}
  else if strcmp_eq (fst d) (str "subtype") then
    {| data_type := data_type k; data_model := data_model k;
       data_subtype := Some d; data_channel := data_channel k;
       data_id := data_id k; data_protocol := data_protocol k |}
  else if strcmp_eq (fst d) (str "channel") then
    {| data_type := data_type k; data_model := data_model k;
       data_subtype := data_subtype k; data_channel := Some d;
       data_id := data_id k; data_protocol := data_protocol k |}
  else if strcmp_eq (fst d) (str "id") then
    {| data_type := data_type k; data_model := data_model k;
       data_subtype := data_subtype k; data_channel := data_channel k;
       data_id := Some d; data_protocol := data_protocol k |}
  else if strcmp_eq (fst d) (str "protocol") then
    {| data_type := data_type k; data_model := data_model k;
       data_subtype := data_subtype k; data_channel := data_channel k;
       data_id := data_id k; data_protocol := Some d |}
  else k.

Definition collect_keys (data : data_t) : known_keys :=
  fold_left collect_key data no_keys.

(** copy until '[' *)
Fixpoint copy_literal (topic format : cstring) : cstring * cstring :=
  match format with
  | [] => (topic, [])
  | c :: format' =>
      if char_eqb c "[" then (topic, format)
      else copy_literal (topic ++ [c]) format'
  end.

Definition key_stop (c : ascii) : bool :=
  char_eqb c ":" || char_eqb c "]" || char_eqb c "[".

Definition default_stop (c : ascii) : bool :=
  char_eqb c "]" || char_eqb c "[".

(** [while ( *format && !stop( *format)) end = ++format;] returns
    [end - start] and the advanced [format]. *)
Fixpoint read_until (stop : ascii -> bool) (format : cstring) : nat * cstring :=
  match format with
  | [] => (O, [])
  | c :: format' =>
      if stop c then (O, format)
      else let '(n, rest) := read_until stop format' in (S n, rest)
  end.

(** What a token resolves to: [string_token] or [data_token] (which may
    be NULL). *)
Inductive token : Type :=
| String_token (s : cstring)
| Data_token (d : option data_field).

(** The chain of [strncmp(t_start, name, t_end - t_start)] tests. *)
Definition resolve_token (keys : known_keys) (hostname : cstring)
    (t_start : cstring) (t_len : nat) : option token :=
  if strncmp_eq t_start (str "hostname") t_len then Some (String_token hostname)
  else if strncmp_eq t_start (str "type") t_len then Some (Data_token (data_type keys))
  else if strncmp_eq t_start (str "model") t_len then Some (Data_token (data_model keys))
  else if strncmp_eq t_start (str "subtype") t_len then Some (Data_token (data_subtype keys))
  else if strncmp_eq t_start (str "channel") t_len then Some (Data_token (data_channel keys))
  else if strncmp_eq t_start (str "id") t_len then Some (Data_token (data_id keys))
  else if strncmp_eq t_start (str "protocol") t_len then Some (Data_token (data_protocol keys))
  else None.

(** "append token or default": [None] is the [continue]. [leading_slash]
    is 0 when no separator was read; [d] is the default text when
    [d_start] is not NULL. *)
Definition append_token (topic : cstring) (leading_slash : option ascii)
    (tok : token) (d : option cstring) : cstring :=
  let with_slash :=
    match leading_slash with
    | Some c => topic ++ [c]
    | None => topic
    end in
  match tok, d with
  | Data_token None, None => topic
  | Data_token (Some data), _ => append_topic with_slash data
  | String_token s, _ => with_slash ++ s
  | Data_token None, Some dflt => with_slash ++ dflt
  end.

(** One turn of the loop "consume entire format string": the loop
    ends with a result, or goes on with the topic written so far and the
    format that remains. *)
Inductive loop_step : Type :=
| Stop (r : result cstring)
| Next (topic format : cstring).

(** The turn from "read key" on: [t_start] is the format at the start
    of the key, [leading_slash] the separator read before it, if any. *)
Definition expand_token (keys : known_keys) (hostname : cstring)
    (topic : cstring) (leading_slash : option ascii) (t_start : cstring) : loop_step :=
  (* read key until : or ] *)
  let '(t_len, format) := read_until key_stop t_start in
  (* read default until ] *)
  let '(d, format) :=
    match format with
    | c :: d_start =>
        if char_eqb c ":" then
          let '(d_len, format) := read_until default_stop d_start in
          (Some (take d_len d_start), format)
        else (None, format)
    | [] => (None, format)
    end in
  (* check for proper closing *)
  match format with
  | c :: format' =>
      if char_eqb c "]" then
        (* resolve token *)
        match resolve_token keys hostname t_start t_len with
        | None => Stop (Exit (Unknown_token (take t_len t_start)))
        | Some tok =>
            (* append token or default *)
            Next (append_token topic leading_slash tok d) format'
        end
      else Stop (Exit Unterminated_token)
  | [] => Stop (Exit Unterminated_token)
  end.

Definition expand_iteration (keys : known_keys) (hostname : cstring)
    (topic format : cstring) : loop_step :=
  (* copy until '[' *)
  let '(topic, format) := copy_literal topic format in
  match format with
  | [] => Stop (Done topic)
  | _ :: format =>
      (* read slash; at the terminator the source steps over it *)
      match format with
      | [] => Stop Undefined
      | c :: format' =>
          if negb (in_range "a" "z" c) then
            expand_token keys hostname topic (Some c) format'
          else expand_token keys hostname topic None format
      end
  end.

(** [while (format && *format)], one turn for each unit of fuel; [None]
    when the fuel runs out. *)
Fixpoint expand_loop (fuel : nat) (keys : known_keys) (hostname : cstring)
    (topic format : cstring) : option (result cstring) :=
  match fuel with
  | O => None
  | S fuel' =>
      match format with
      | [] => Some (Done topic)
      | _ :: _ =>
          match expand_iteration keys hostname topic format with
          | Stop r => Some r
          | Next topic' format' => expand_loop fuel' keys hostname topic' format'
          end
      end
  end.

(** [expand_topic(topic, format, data, hostname)]: [topic] is what the
    buffer holds before the place written to (the buffer is taken large
    enough), the result is what it holds on return. *)
Definition expand_from (topic format : cstring) (data : data_t)
    (hostname : cstring) : option (result cstring) :=
  expand_loop (S (length format)) (collect_keys data) hostname topic format.

Definition expand_topic (format : cstring) (data : data_t)
    (hostname : cstring) : option (result cstring) :=
  expand_from [] format data hostname.

(** ** MQTT printer *)

(** What the functions of the printer get from outside during one call:
    the texts libc's snprintf gives for a double under "%g" and under
    "%.5f" (in full, before the cut to the size of the buffer), the
    JSON text of data_print_jsons for a buffer of a given size, the
    clock, the answers of the allocator and of mg_connect_opt, and the
    helpers of the option parser: atobv, atoiv, tls_param (true when it
    takes the key) and the client id made from the crc16 of the host
    name and of the device hint. *)
Record extern_t : Type := {
  snprintf_g : float -> cstring;
  snprintf_5f : float -> cstring;
  data_print_jsons : data_t -> nat -> cstring;
  mg_time : float;
  mem : alloc_t;
  malloc_ok : bool;
  connect_ok : bool;
  atobv : option cstring -> Z -> Z;
  atoiv : option cstring -> Z -> Z;
  tls_param : cstring -> option cstring -> bool;
  make_client_id : cstring -> option cstring -> cstring
}.

Record data_output_mqtt_t : Type := {
  mqc : mqtt_client_t;
  mqtt_topic : cstring;
  hostname : cstring;
  devices : option cstring;
  events : option cstring;
  states : option cstring
}.

Definition set_topic (mqtt : data_output_mqtt_t) (t : cstring) : data_output_mqtt_t :=
  {| mqc := mqc mqtt; mqtt_topic := t; hostname := hostname mqtt;
     devices := devices mqtt; events := events mqtt; states := states mqtt |}.

Definition set_mqc (mqtt : data_output_mqtt_t) (c : mqtt_client_t) : data_output_mqtt_t :=
  {| mqc := c; mqtt_topic := mqtt_topic mqtt; hostname := hostname mqtt;
     devices := devices mqtt; events := events mqtt; states := states mqtt |}.

Definition print_mqtt_string (w : extern_t) (mqtt : data_output_mqtt_t)
    (str : cstring) : M data_output_mqtt_t :=
  do c <- mqtt_client_publish (mqc mqtt) (mqtt_topic mqtt) str (mg_time w) (mem w);
  ret (set_mqc mqtt c).

(** "remove trailing zeros, always keep one digit after the decimal
    point": [p] walks back from the last character; the argument is the
    text up to [p], last character first, and so is the result. Reading
    [*p] or [p[-1]] before the start of [str] is undefined. *)
Fixpoint strip_zeros (rev_str : cstring) : result cstring :=
  match rev_str with
  | [] => Undefined
  | c :: before =>
      if char_eqb c "0" then
        match before with
        | [] => Undefined
        | b :: _ =>
            if negb (char_eqb b ".") then strip_zeros before
            else Done rev_str
        end
      else Done rev_str
  end.

(** [data > 1e7 || data < 1e-4] *)
Definition use_scientific (data : float) : bool :=
  PrimFloat.ltb 1e7 data || PrimFloat.ltb data 1e-4.

(** The [str] of print_mqtt_double, a buffer of 20 characters: snprintf
    keeps 19 characters of a longer text and returns the full length. *)
Definition double_str (w : extern_t) (data : float) : result cstring :=
  if use_scientific data then Done (take 19 (snprintf_g w data))
  else
    let full := snprintf_5f w data in
    let ret := length full in
    if (ret <? 20)%nat then
      match strip_zeros (rev full) with
      | Done r => Done (rev r)
      | Exit why => Exit why
      | Undefined => Undefined
      end
    else if (ret =? 20)%nat then Done (take 19 full)
    else Undefined.

Definition print_mqtt_double (w : extern_t) (mqtt : data_output_mqtt_t)
    (data : float) : M data_output_mqtt_t :=
  match double_str w data with
  | Done str => print_mqtt_string w mqtt str
  | Exit why => fail_exit why
  | Undefined => undefined
  end.

Definition print_mqtt_int (w : extern_t) (mqtt : data_output_mqtt_t)
    (data : Z) : M data_output_mqtt_t :=
  print_mqtt_string w mqtt (sprintf_d data).

(** The last field with this key, as the loops "collect well-known top
    level keys" find it. *)
Definition find_step (name : cstring) (found : option data_field)
    (d : data_field) : option data_field :=
  if strcmp_eq (fst d) name then Some d else found.

Definition find_field (name : cstring) (data : data_t) : option data_field :=
  fold_left (find_step name) data None.

(** expand_topic as a step of a computation. *)
Definition expand_topic_M (format : cstring) (data : data_t)
    (hostname : cstring) : M cstring :=
  match expand_topic format data hostname with
  | Some (Done t) => ret t
  | Some (Exit why) => fail_exit why
  | Some Undefined => undefined
  | None => undefined
  end.

Definition skipped_key (key : cstring) : bool :=
  strcmp_eq key (str "type") || strcmp_eq key (str "model")
  || strcmp_eq key (str "subtype").

(** The loop over the fields at the end of print_mqtt_data: [base] is
    the topic up to [end]. *)
Definition print_fields
    (print_value : data_output_mqtt_t -> data_value -> M data_output_mqtt_t)
    (base : cstring) :=
  fix go (mqtt : data_output_mqtt_t) (data : data_t) : M data_output_mqtt_t :=
    match data with
    | [] => ret mqtt
    | d :: data' =>
        do mqtt <- (if skipped_key (fst d) then ret mqtt
                    else
                      (* push topic *)
                      do mqtt <- print_value
                                   (set_topic mqtt (base ++ "/"%char :: fst d))
                                   (snd d);
                      (* pop topic *)
                      ret (set_topic mqtt base));
        go mqtt data'
    end.

Definition print_mqtt_data_with
    (print_value : data_output_mqtt_t -> data_value -> M data_output_mqtt_t)
    (w : extern_t) (mqtt : data_output_mqtt_t) (data : data_t) : M data_output_mqtt_t :=
  let orig := mqtt_topic mqtt in
  match orig with
  | [] =>
      (* top-level only *)
      match find_field (str "model") data with
      | None =>
          (* "states" topic *)
          match states mqtt with
          | Some format =>
              if negb (malloc_ok w) then
                run emit (Stderr Warn_malloc); ret mqtt
              else
                let message := data_print_jsons w data 20000 in
                do t <- expand_topic_M format data (hostname mqtt);
                do mqtt <- print_mqtt_string w (set_topic mqtt t) message;
                ret (set_topic mqtt [])
          | None => ret mqtt
          end
      | Some _ =>
          (* "events" topic *)
          do mqtt <- (match events mqtt with
                      | Some format =>
                          let message := data_print_jsons w data 2048 in
                          do t <- expand_topic_M format data (hostname mqtt);
                          do mqtt <- print_mqtt_string w (set_topic mqtt t) message;
                          ret (set_topic mqtt [])
                      | None => ret mqtt
                      end);
          (* "devices" topic *)
          match devices mqtt with
          | None => ret mqtt
          | Some format =>
              do t <- expand_topic_M format data (hostname mqtt);
              do mqtt <- print_fields print_value t (set_topic mqtt t) data;
              ret (set_topic mqtt orig)
          end
      end
  | _ :: _ =>
      do mqtt <- print_fields print_value orig mqtt data;
      ret (set_topic mqtt orig)
  end.

(** print_mqtt_array: one topic level for each index. *)
Definition print_elements
    (print_value : data_output_mqtt_t -> data_value -> M data_output_mqtt_t)
    (orig : cstring) :=
  fix go (c : Z) (mqtt : data_output_mqtt_t) (values : list data_value)
      : M data_output_mqtt_t :=
    match values with
    | [] => ret mqtt
    | v :: values' =>
        do mqtt <- print_value
                     (set_topic mqtt (orig ++ "/"%char :: sprintf_d c)) v;
        go (c + 1) mqtt values'
    end.

(** Modelled from the spec: print_value and print_array_value (data.c)
    are not among the sources; they hand a value to the function the
    printer has for its type, which data_output_mqtt_create sets to
    print_mqtt_data, print_mqtt_array, print_mqtt_string,
    print_mqtt_double and print_mqtt_int. *)
Fixpoint print_value (w : extern_t) (mqtt : data_output_mqtt_t)
    (v : data_value) {struct v} : M data_output_mqtt_t :=
  match v with
  | DATA_DATA fields => print_mqtt_data_with (print_value w) w mqtt fields
  | DATA_INT v_int => print_mqtt_int w mqtt v_int
  | DATA_DOUBLE v_dbl => print_mqtt_double w mqtt v_dbl
  | DATA_STRING v_ptr => print_mqtt_string w mqtt v_ptr
  | DATA_ARRAY values =>
      let orig := mqtt_topic mqtt in
      do mqtt <- print_elements (print_value w) orig 0 mqtt values;
      ret (set_topic mqtt orig)
  end.

Definition print_mqtt_data (w : extern_t) (mqtt : data_output_mqtt_t)
    (data : data_t) : M data_output_mqtt_t :=
  print_mqtt_data_with (print_value w) w mqtt data.

Definition print_mqtt_array (w : extern_t) (mqtt : data_output_mqtt_t)
    (values : list data_value) : M data_output_mqtt_t :=
  print_value w mqtt (DATA_ARRAY values).

(** ** Creating the output *)

Fixpoint before_char (c : ascii) (s : cstring) : cstring :=
  match s with
  | [] => []
  | x :: s' => if char_eqb x c then [] else x :: before_char c s'
  end.

Definition tolower (c : ascii) : ascii :=
  if in_range "A" "Z" c then ascii_of_N (code c + 32) else c.

Fixpoint strcasecmp_eq (a b : cstring) : bool :=
  match a, b with
  | [], [] => true
  | x :: a', y :: b' => char_eqb (tolower x) (tolower y) && strcasecmp_eq a' b'
  | _, _ => false
  end.

(** The client starts from zeroed memory. The credentials and the TLS
    options only pass through to mongoose and are left out. [qos] is
    stored as an unsigned. *)
Definition mqtt_client_init (w : extern_t) (host port client_id : cstring)
    (retain qos : Z) : M mqtt_client_t :=
  if negb (malloc_ok w) then fail_exit Fatal_calloc
  else
    let address :=
      take 259 (if existsb (char_eqb ":") host
                then "["%char :: host ++ str "]:" ++ port
                else host ++ ":"%char :: port) in
    run emit (Mg_connect_opt address);
    if negb (connect_ok w) then
      run emit (Stderr (Log_connect_failed address));
      fail_exit Connect_failed
    else
      run (if 0 <? qos then emit (Mg_set_timer (mg_time w + 0.5)%float) else ret tt);
      ret {| conn := Some {| proto_handler := false |};
             prev_status := 0;
             address := address;
             client_id := take 255 client_id;
             message_id := 0;
             publish_flags := {| flags_qos := qos; flags_retain := negb (retain =? 0) |};
             qos := qos mod 4294967296;
             inflight := {| elems := []; size := 0 |} |}.

Definition mqtt_topic_default (w : extern_t) (topic : option cstring)
    (base : option cstring) (suffix : cstring) : M (option cstring) :=
  let p :=
    match topic, base with
    | Some t, _ => t
    | None, None => suffix
    | None, Some b => take 255 (b ++ "/"%char :: suffix)
    end in
  if strdup_topic_ok (mem w) then ret (Some p)
  else run emit (Stderr Warn_strdup); ret None.

Definition path_devices : cstring :=
  str "devices[/type][/model][/subtype][/channel][/id]".
Definition path_events : cstring := str "events".
Definition path_states : cstring := str "states".

(** What the loop over the options of data_output_mqtt_create sets. *)
Record create_t : Type := {
  retain : Z;
  qos_opt : Z;
  c_devices : option cstring;
  c_events : option cstring;
  c_states : option cstring
}.

Definition key_is (key : cstring) (short long : string) : bool :=
  strcasecmp_eq key (str short) || strcasecmp_eq key (str long).

(** One turn of "parse auth and format options": [key] and [val] as
    getkwargs, remove_ws and trim_ws give them. *)
Definition create_option (w : extern_t) (base_topic : cstring) (st : create_t)
    (kv : cstring * option cstring) : M create_t :=
  let key := fst kv in
  let val := snd kv in
  match key with
  | [] => ret st
  | _ :: _ =>
      if key_is key "u" "user" then ret st
      else if key_is key "p" "pass" then ret st
      else if key_is key "r" "retain" then
        ret {| retain := atobv w val 1; qos_opt := qos_opt st;
               c_devices := c_devices st; c_events := c_events st;
               c_states := c_states st |}
      else if key_is key "q" "qos" then
        ret {| retain := retain st; qos_opt := atoiv w val 1;
               c_devices := c_devices st; c_events := c_events st;
               c_states := c_states st |}
      else if key_is key "d" "devices" then
        do t <- mqtt_topic_default w val (Some base_topic) path_devices;
        ret {| retain := retain st; qos_opt := qos_opt st;
               c_devices := t; c_events := c_events st;
               c_states := c_states st |}
      else if key_is key "c" "usechannel" then fail_exit Usechannel_removed
      else if key_is key "e" "events" then
        do t <- mqtt_topic_default w val (Some base_topic) path_events;
        ret {| retain := retain st; qos_opt := qos_opt st;
               c_devices := c_devices st; c_events := t;
               c_states := c_states st |}
      else if key_is key "s" "states" then
        do t <- mqtt_topic_default w val (Some base_topic) path_states;
        ret {| retain := retain st; qos_opt := qos_opt st;
               c_devices := c_devices st; c_events := c_events st;
               c_states := t |}
      else if tls_param w key val then ret st
      else fail_exit (Invalid_key key)
  end.

Fixpoint create_options (w : extern_t) (base_topic : cstring) (st : create_t)
    (opts : list (cstring * option cstring)) : M create_t :=
  match opts with
  | [] => ret st
  | kv :: opts' =>
      do st <- create_option w base_topic st kv;
      create_options w base_topic st opts'
  end.

(** data_output_mqtt_create, from the host name gethostname gives and
    the host, port and options arg_param, hostport_param and getkwargs
    split the parameter into. *)
Definition data_output_mqtt_create (w : extern_t) (gethostname : cstring)
    (host port : cstring) (opts : list (cstring * option cstring))
    (dev_hint : option cstring) : M data_output_mqtt_t :=
  if negb (malloc_ok w) then fail_exit Fatal_calloc
  else
    (* only use hostname, not domain part *)
    let hostname := before_char "." (take 63 gethostname) in
    let client_id := make_client_id w hostname dev_hint in
    (* default base topic *)
    let base_topic := str "rtl_433/" ++ hostname in
    do st <- create_options w base_topic
               {| retain := 0; qos_opt := 0; c_devices := None;
                  c_events := None; c_states := None |} opts;
    (* Default is to use all formats *)
    do st <- (match c_devices st, c_events st, c_states st with
              | None, None, None =>
                  do d <- mqtt_topic_default w None (Some base_topic) path_devices;
                  do e <- mqtt_topic_default w None (Some base_topic) path_events;
                  do s <- mqtt_topic_default w None (Some base_topic) path_states;
                  ret {| retain := retain st; qos_opt := qos_opt st;
                         c_devices := d; c_events := e; c_states := s |}
              | _, _, _ => ret st
              end);
    do c <- mqtt_client_init w host port client_id (retain st) (qos_opt st);
    ret {| mqc := c; mqtt_topic := []; hostname := hostname;
           devices := c_devices st; events := c_events st;
           states := c_states st |}.

(** ** Vocabulary of the statements *)

(** The names that resolve to a field of the record. *)
Definition record_names : list cstring :=
  [str "type"; str "model"; str "subtype"; str "channel"; str "id"; str "protocol"].

Definition token_names : list cstring := str "hostname" :: record_names.

Definition is_record_name (name : cstring) : bool :=
  existsb (strcmp_eq name) record_names.

(** A run of template text without a '['. *)
Definition literal (lit : cstring) : bool :=
  forallb (fun c => negb (char_eqb c "[")) lit.

(** A token as a template writes it: '[', a separator or none, the name,
    a ':' and a default text or none, ']'. *)
Definition bracket_tail (dflt : option cstring) (rest : cstring) : cstring :=
  match dflt with
  | Some d => ":"%char :: d ++ "]"%char :: rest
  | None => "]"%char :: rest
  end.

Definition bracket (sep : option ascii) (name : cstring) (dflt : option cstring)
    (rest : cstring) : cstring :=
  "["%char ::
  match sep with
  | Some c => c :: name ++ bracket_tail dflt rest
  | None => name ++ bracket_tail dflt rest
  end.

(** The separator is not a lower case letter; without one the name
    starts with a lower case letter. *)
Definition sep_ok (sep : option ascii) (name : cstring) : bool :=
  match sep with
  | Some c => negb (in_range "a" "z" c)
  | None =>
      match name with
      | c :: _ => in_range "a" "z" c
      | [] => false
      end
  end.

Definition name_ok (name : cstring) : bool :=
  forallb (fun c => negb (key_stop c)) name.

Definition default_ok (dflt : option cstring) : bool :=
  match dflt with
  | Some d => forallb (fun c => negb (default_stop c)) d
  | None => true
  end.

(** [t0] written before what a turn of the loop writes. *)
Definition step_prepend (t0 : cstring) (s : loop_step) : loop_step :=
  match s with
  | Stop (Done t) => Stop (Done (t0 ++ t))
  | Stop r => Stop r
  | Next t f => Next (t0 ++ t) f
  end.

(** [t] written before what [r] writes. *)
Definition prepend (t : cstring) (r : option (result cstring)) : option (result cstring) :=
  match r with
  | Some (Done s) => Some (Done (t ++ s))
  | other => other
  end.

Definition is_exit {A : Type} (r : option (result A)) : bool :=
  match r with
  | Some (Exit _) => true
  | _ => false
  end.

Fixpoint is_prefix (a b : cstring) : bool :=
  match a, b with
  | [], _ => true
  | x :: a', y :: b' => char_eqb x y && is_prefix a' b'
  | _ :: _, [] => false
  end.

(** The token is accepted by one of the strncmp tests. *)
Definition known_prefix (name : cstring) : bool :=
  existsb (is_prefix name) token_names.

(** A separator that is neither a lower case letter nor one of the
    characters that end a name. *)
Definition plain_sep (sep : option ascii) : bool :=
  match sep with
  | Some c => negb (in_range "a" "z" c) && negb (key_stop c)
  | None => true
  end.

Definition sep_text (sep : option ascii) : cstring :=
  match sep with
  | Some c => [c]
  | None => []
  end.

(** The characters mqtt_sanitize_topic is documented to keep. *)
Definition allowed_char (c : ascii) : bool :=
  existsb (char_eqb c)
    (str "ABCDEFGHIJKLMNOPQRSTUVWXYZabcdefghijklmnopqrstuvwxyz0123456789.-").

(** The registry holds an entry with this message id. *)
Definition has_mid (l : list mqtt_msg_t) (m : Z) : bool :=
  existsb (fun e => mid e =? m) l.

(** The entry inflight_add stores. *)
Definition new_entry (topic : cstring) (m : Z) (msg : cstring) (mg_time : float) : mqtt_msg_t :=
  {| topic := topic; msg := msg; timeout := (mg_time + 1.2)%float;
     retries := 0; mid := m |}.

(** The capacity after an inflight_add that got its memory. *)
Definition grown_size (list : inflight_t) : nat :=
  if (size list <=? len list)%nat then
    if (size list <? 8)%nat then 8%nat else (size list + size list / 2)%nat
  else size list.

(** An entry as a resend leaves it. *)
Definition resent (now : float) (e : mqtt_msg_t) : mqtt_msg_t :=
  {| topic := topic e; msg := msg e; timeout := (now + 1.2)%float;
     retries := retries e + 1; mid := mid e |}.

(** What one resend prints and sends. *)
Definition resend_trace (flags : publish_flags_t) (e : mqtt_msg_t) : list effect :=
  [Stderr (Log_resending (retries e + 1) (mid e));
   Mg_mqtt_publish (topic e) (mid e) flags (msg e)].

(** Entries whose deadline lies strictly before [now]. *)
Definition overdue (now : float) (e : mqtt_msg_t) : bool :=
  PrimFloat.ltb (timeout e) now.

Definition retries_bounded (l : list mqtt_msg_t) : bool :=
  forallb (fun e => retries e <? INT_MAX) l.

Definition sends (t : list effect) : list effect :=
  List.filter (fun e => match e with Mg_mqtt_publish _ _ _ _ => true | _ => false end) t.

(** What a sweep at [now] makes of an entry, and what it prints and
    sends for it. *)
Definition sweep_entry (now : float) (e : mqtt_msg_t) : mqtt_msg_t :=
  if overdue now e then resent now e else e.

Definition sweep_trace (flags : publish_flags_t) (now : float) (e : mqtt_msg_t) : list effect :=
  if overdue now e then resend_trace flags e else [].

(** Leading zeros dropped; on a text taken last character first these
    are the trailing zeros. *)
Fixpoint drop_zeros (s : cstring) : cstring :=
  match s with
  | [] => []
  | c :: s' => if char_eqb c "0" then drop_zeros s' else s
  end.

(** The digits after the decimal point without their trailing zeros,
    one digit at least. *)
Definition trim_frac (frac : cstring) : cstring :=
  match frac with
  | [] => []
  | _ :: _ =>
      match drop_zeros (rev frac) with
      | [] => ["0"%char]
      | r => rev r
      end
  end.

Definition digits (s : cstring) : bool := forallb (in_range "0" "9") s.

(** The computation ended in one of the two errors of expand_topic. *)
Definition template_error {A : Type} (r : result A) : bool :=
  match r with
  | Exit (Unknown_token _) => true
  | Exit Unterminated_token => true
  | _ => false
  end.

(** An outside world in which memory and the connection are to be had,
    with the answers of snprintf for the doubles used in the examples. *)
Definition example_extern : extern_t :=
  {| snprintf_g := fun d =>
       if PrimFloat.eqb d 1e-5 then str "1e-05"
       else if PrimFloat.eqb d 12345678 then str "1.23457e+07"
       else str "nan";
     snprintf_5f := fun d =>
       if PrimFloat.eqb d 3.14 then str "3.14000"
       else if PrimFloat.eqb d 1e7 then str "10000000.00000"
       else str "nan";
     data_print_jsons := fun _ _ => str "{}";
     mg_time := 0;
     mem := alloc_succeeds;
     malloc_ok := true;
     connect_ok := true;
     atobv := fun _ def => def;
     atoiv := fun _ def => def;
     tls_param := fun _ _ => false;
     make_client_id := fun _ _ => str "rtl_433-00000000" |}.

(** isspace in the C locale: space, \t, \n, \v, \f, \r. *)
Definition is_space (c : ascii) : bool :=
  existsb (char_eqb c) [" "; "009"; "010"; "011"; "012"; "013"]%char.

(** Binary64, for the deadlines: what the statements about
    [PrimFloat.add] and [PrimFloat.ltb] are proved from. *)

(** The number of binary digits of a mantissa. *)
Definition mantissa_digits (m : positive) : Z := Zpos (digits2_pos m).

(** [fexp prec emax] for binary64. *)
Definition fexp64 (e : Z) : Z := Z.max (e - 53) (-1074).

(** The end of binary_round_aux: the float for a mantissa and an exponent. *)
Definition SF_of (s : bool) (m e : Z) : spec_float :=
  match m with
  | Z0 => S754_zero s
  | Zpos p => if e <=? 971 then S754_finite s p e else S754_infinity s
  | Zneg _ => S754_nan
  end.

(** What the loop of shr keeps: after [k] steps the mantissa is the
    quotient by 2^k, and the round and sticky bits are clear when the
    division is exact. *)
Definition shr_inv (m k : Z) (mrs : shr_record) : Prop :=
  0 <= k /\ shr_m mrs = m / 2 ^ k
  /\ (shr_r mrs || shr_s mrs = true -> m mod 2 ^ k <> 0).

(** The double 1.2 of the source, 5404319552844595 * 2^-52. *)
Definition sf_1_2 : spec_float := S754_finite false 5404319552844595 (-52).

(** * Properties *)

(** ** Examples of expansion *)

Example expand_a_channel :
  expand_topic (str "a[/channel]") [(str "model", DATA_STRING (str "X"))] (str "pc")
  = Some (Done (str "a")).
Proof. reflexivity. Qed.

Example expand_default_devices :
  expand_topic (str "rtl_433/[hostname]/devices[/type][/model][/subtype][/channel][/id]")
    [(str "model", DATA_STRING (str "Acme/X 1")); (str "id", DATA_INT 7);
     (str "battery_ok", DATA_INT 1)] (str "pc")
  = Some (Done (str "rtl_433/pc/devices/Acme_X_1/7")).
Proof. reflexivity. Qed.

Example expand_prefix_token :
  expand_topic (str "x[/m:none][/]") [(str "model", DATA_STRING (str "X"))] (str "pc")
  = Some (Done (str "x/X/pc")).
Proof. reflexivity. Qed.

Example expand_open_end :
  expand_topic (str "x[") [] (str "pc") = Some Undefined.
Proof. reflexivity. Qed.

(** ** Characters and strings *)

Lemma char_eqb_eq (a b : ascii) : char_eqb a b = true <-> a = b.
Proof. apply Ascii.eqb_eq. Qed.

Lemma char_eqb_refl (a : ascii) : char_eqb a a = true.
Proof. apply Ascii.eqb_refl. Qed.

Lemma strcmp_eq_eq (a b : cstring) : strcmp_eq a b = true <-> a = b.
Proof.
  revert b. induction a as [|x a IH]; intros [|y b]; simpl; split; try easy.
  - intros H. apply andb_true_iff in H as [Hc Hs].
    apply char_eqb_eq in Hc. apply IH in Hs. congruence.
  - intros H. injection H as -> ->. rewrite char_eqb_refl. simpl. now apply IH.
Qed.

(** With [n] the length of the token, strncmp accepts exactly the
    prefixes of the name. *)
Lemma strncmp_eq_prefix (key rest name : cstring) :
  strncmp_eq (key ++ rest) name (length key) = is_prefix key name.
Proof.
  revert name. induction key as [|x key IH]; intros name; simpl.
  - destruct name; reflexivity.
  - destruct name as [|y name]; [reflexivity|]. rewrite IH. reflexivity.
Qed.

(** ** The scanning loops *)

Lemma copy_literal_app (topic lit rest : cstring) :
  literal lit = true ->
  copy_literal topic (lit ++ "["%char :: rest) = (topic ++ lit, "["%char :: rest).
Proof.
  revert topic. induction lit as [|c lit IH]; intros topic H; simpl in *.
  - now rewrite app_nil_r.
  - apply andb_true_iff in H as [Hc Hl].
    destruct (char_eqb c "[") eqn:E; [discriminate|].
    rewrite IH by assumption. now rewrite <- app_assoc.
Qed.

(** What copy_literal leaves is empty or starts at a '[', and is a
    suffix of the format. *)
Lemma copy_literal_spec (format : cstring) :
  exists lit rest,
    (forall topic, copy_literal topic format = (topic ++ lit, rest)) /\
    format = lit ++ rest /\ literal lit = true /\
    (rest = [] \/ exists rest', rest = "["%char :: rest').
Proof.
  induction format as [|c format IH]; simpl.
  - exists [], []. split; [intros; now rewrite app_nil_r|auto].
  - destruct (char_eqb c "[") eqn:E.
    + apply char_eqb_eq in E. subst c. exists [], ("["%char :: format).
      split; [intros; now rewrite app_nil_r|eauto 6].
    + destruct IH as (lit & rest & H1 & H2 & H3 & H4).
      exists (c :: lit), rest. split.
      * intros topic. rewrite H1, <- app_assoc. reflexivity.
      * simpl. rewrite E, H3. subst format. auto.
Qed.

Lemma read_until_app (stop : ascii -> bool) (k : cstring) (y : ascii) (rest : cstring) :
  forallb (fun c => negb (stop c)) k = true -> stop y = true ->
  read_until stop (k ++ y :: rest) = (length k, y :: rest).
Proof.
  intros Hk Hy. induction k as [|c k IH]; simpl in *.
  - now rewrite Hy.
  - apply andb_true_iff in Hk as [Hc Hk].
    destruct (stop c); [discriminate|]. now rewrite IH.
Qed.

(** What read_until leaves is a suffix of the format, and starts at a
    stop character unless it is empty. *)
Lemma read_until_spec (stop : ascii -> bool) (format : cstring) :
  exists k rest,
    read_until stop format = (length k, rest) /\ format = k ++ rest /\
    (rest = [] \/ exists y rest', rest = y :: rest' /\ stop y = true).
Proof.
  induction format as [|c format IH]; simpl.
  - exists [], []. auto.
  - destruct (stop c) eqn:E.
    + exists [], (c :: format). eauto 7.
    + destruct IH as (k & rest & H1 & H2 & H3).
      exists (c :: k), rest. rewrite H1. subst format. auto.
Qed.

(** ** One turn of the loop *)

(** A turn that starts at literal text followed by a well-formed token. *)
Lemma expand_token_bracket keys hostname topic sep name dflt rest :
  name_ok name = true -> default_ok dflt = true ->
  expand_token keys hostname topic sep (name ++ bracket_tail dflt rest)
  = match resolve_token keys hostname (name ++ bracket_tail dflt rest) (length name) with
    | None => Stop (Exit (Unknown_token name))
    | Some tok => Next (append_token topic sep tok dflt) rest
    end.
Proof.
  intros Hname Hdflt. unfold expand_token.
  assert (Hkey : read_until key_stop (name ++ bracket_tail dflt rest)
                 = (length name, bracket_tail dflt rest)).
  { destruct dflt; simpl; now apply read_until_app. }
  rewrite Hkey.
  destruct dflt as [d|]; simpl in *.
  - rewrite read_until_app by easy. simpl. now rewrite !take_app_length.
  - now rewrite take_app_length.
Qed.

(** A turn that starts at literal text followed by a well-formed token. *)
Lemma expand_iteration_bracket keys hostname topic lit sep name dflt rest :
  literal lit = true -> sep_ok sep name = true ->
  name_ok name = true -> default_ok dflt = true ->
  expand_iteration keys hostname topic (lit ++ bracket sep name dflt rest)
  = match resolve_token keys hostname (name ++ bracket_tail dflt rest) (length name) with
    | None => Stop (Exit (Unknown_token name))
    | Some tok => Next (append_token (topic ++ lit) sep tok dflt) rest
    end.
Proof.
  intros Hlit Hsep Hname Hdflt.
  unfold expand_iteration, bracket. rewrite copy_literal_app by assumption.
  destruct sep as [c|]; simpl in Hsep.
  - rewrite Hsep. now apply expand_token_bracket.
  - destruct name as [|c name]; [discriminate|].
    simpl app at 1. cbv iota. rewrite Hsep. simpl negb. cbv iota.
    now apply (expand_token_bracket _ _ _ None (c :: name)).
Qed.

(** What a token leaves of the format is shorter than the format at
    the start of its key. *)
Lemma expand_token_shrinks keys hostname topic sep t_start topic' format' :
  expand_token keys hostname topic sep t_start = Next topic' format' ->
  (length format' < length t_start)%nat.
Proof.
  unfold expand_token.
  destruct (read_until_spec key_stop t_start) as (k & r4 & -> & Ht & _).
  assert (H4 : (length r4 <= length t_start)%nat).
  { subst t_start. rewrite length_app. lia. }
  clear Ht.
  assert (H5 : forall d r5,
    match r4 with
    | c0 :: d_start =>
        if char_eqb c0 ":" then
          let '(d_len, format) := read_until default_stop d_start in
          (Some (take d_len d_start), format)
        else (None, r4)
    | [] => (None, r4)
    end = (d, r5) -> (length r5 <= length t_start)%nat).
  { intros d r5. destruct r4 as [|c0 d_start]; [intros [= _ <-]; simpl; lia|].
    destruct (char_eqb c0 ":"); [|intros [= _ <-]; exact H4].
    destruct (read_until_spec default_stop d_start) as (k' & r' & -> & Hd & _).
    intros [= _ <-]. subst d_start. simpl in H4. rewrite length_app in H4. lia. }
  destruct (match r4 with [] => _ | _ => _ end) as [d r5].
  specialize (H5 d r5 eq_refl).
  destruct r5 as [|c5 r6]; [discriminate|].
  destruct (char_eqb c5 "]"); [|discriminate].
  destruct (resolve_token _ _ _ _); [|discriminate].
  intros [= _ <-]. simpl in *. lia.
Qed.

(** A turn that goes on has consumed at least the '[' it stopped at. *)
Lemma expand_iteration_shrinks keys hostname topic format topic' format' :
  expand_iteration keys hostname topic format = Next topic' format' ->
  (length format' < length format)%nat.
Proof.
  unfold expand_iteration.
  destruct (copy_literal_spec format) as (lit & r1 & Hcopy & -> & _ & Hr1).
  rewrite Hcopy. clear Hcopy.
  destruct Hr1 as [->|[r2 ->]]; [discriminate|].
  destruct r2 as [|c r3]; [discriminate|].
  rewrite length_app. simpl length.
  destruct (negb _); intros H; apply expand_token_shrinks in H; simpl in H; lia.
Qed.

(** ** Fuel *)

(** Any fuel above the length of the format gives the same answer. *)
Lemma expand_loop_fuel keys hostname (fuel1 fuel2 : nat) topic format :
  (length format < fuel1)%nat -> (length format < fuel2)%nat ->
  expand_loop fuel1 keys hostname topic format
  = expand_loop fuel2 keys hostname topic format.
Proof.
  revert fuel2 topic format.
  induction fuel1 as [|fuel1 IH]; intros fuel2 topic format H1 H2; [lia|].
  destruct fuel2 as [|fuel2]; [lia|].
  destruct format as [|c format]; [reflexivity|].
  cbn [expand_loop].
  destruct (expand_iteration keys hostname topic (c :: format)) as [r|t f] eqn:E;
    [reflexivity|].
  apply expand_iteration_shrinks in E. apply IH; lia.
Qed.

(** expand_topic always comes to an end. *)
Lemma expand_loop_total keys hostname (fuel : nat) topic format :
  (length format < fuel)%nat ->
  exists r, expand_loop fuel keys hostname topic format = Some r.
Proof.
  revert topic format.
  induction fuel as [|fuel IH]; intros topic format H; [lia|].
  destruct format as [|c format]; [simpl; eauto|].
  cbn [expand_loop].
  destruct (expand_iteration keys hostname topic (c :: format)) as [r|t f] eqn:E;
    [eauto|].
  apply expand_iteration_shrinks in E. apply IH; lia.
Qed.

Lemma expand_topic_total format data hostname :
  exists r, expand_topic format data hostname = Some r.
Proof. apply expand_loop_total. lia. Qed.

Lemma expand_loop_step keys hostname (fuel : nat) topic format :
  format <> [] ->
  expand_loop (S fuel) keys hostname topic format
  = match expand_iteration keys hostname topic format with
    | Stop r => Some r
    | Next topic' format' => expand_loop fuel keys hostname topic' format'
    end.
Proof. destruct format; [congruence|reflexivity]. Qed.

(** One turn of expand_from, at literal text followed by a well-formed
    token. *)
Lemma expand_from_bracket topic lit sep name dflt rest data hostname :
  literal lit = true -> sep_ok sep name = true ->
  name_ok name = true -> default_ok dflt = true ->
  expand_from topic (lit ++ bracket sep name dflt rest) data hostname
  = match resolve_token (collect_keys data) hostname
            (name ++ bracket_tail dflt rest) (length name) with
    | None => Some (Exit (Unknown_token name))
    | Some tok =>
        expand_from (append_token (topic ++ lit) sep tok dflt) rest data hostname
    end.
Proof.
  intros Hlit Hsep Hname Hdflt. unfold expand_from.
  assert (Hlen : (length rest < length (lit ++ bracket sep name dflt rest))%nat).
  { rewrite length_app. unfold bracket, bracket_tail.
    destruct sep, dflt; simpl; rewrite ?length_app; simpl;
      rewrite ?length_app; simpl; lia. }
  rewrite expand_loop_step by (intros E; rewrite E in Hlen; simpl in Hlen; lia).
  rewrite expand_iteration_bracket by assumption.
  destruct (resolve_token _ _ _ _); [|reflexivity].
  apply expand_loop_fuel; lia.
Qed.

(** ** What was written before does not matter *)

Lemma append_token_prepend t0 topic sep tok d :
  append_token (t0 ++ topic) sep tok d = t0 ++ append_token topic sep tok d.
Proof.
  unfold append_token, append_topic.
  destruct tok as [s|[[k v]|]], sep, d; simpl;
    try destruct v; rewrite <- ?app_assoc; reflexivity.
Qed.

Lemma expand_token_prepend keys hostname t0 topic sep t_start :
  expand_token keys hostname (t0 ++ topic) sep t_start
  = step_prepend t0 (expand_token keys hostname topic sep t_start).
Proof.
  unfold expand_token.
  destruct (read_until key_stop t_start) as [t_len r4].
  destruct (match r4 with [] => _ | _ => _ end) as [d r5].
  destruct r5 as [|c5 r6]; [reflexivity|].
  destruct (char_eqb c5 "]"); [|reflexivity].
  destruct (resolve_token _ _ _ _); [|reflexivity].
  simpl. now rewrite append_token_prepend.
Qed.

Lemma expand_iteration_prepend keys hostname t0 topic format :
  expand_iteration keys hostname (t0 ++ topic) format
  = step_prepend t0 (expand_iteration keys hostname topic format).
Proof.
  unfold expand_iteration.
  destruct (copy_literal_spec format) as (lit & r1 & Hcopy & _).
  rewrite !Hcopy. clear Hcopy.
  destruct r1 as [|c1 r2]; [simpl; now rewrite app_assoc|].
  destruct r2 as [|c r3]; [reflexivity|].
  rewrite <- app_assoc. destruct (negb _); apply expand_token_prepend.
Qed.

Lemma expand_loop_prepend keys hostname (fuel : nat) t0 topic format :
  expand_loop fuel keys hostname (t0 ++ topic) format
  = prepend t0 (expand_loop fuel keys hostname topic format).
Proof.
  revert topic format. induction fuel as [|fuel IH]; intros topic format;
    [reflexivity|].
  destruct format as [|c format]; [reflexivity|].
  cbn [expand_loop]. rewrite expand_iteration_prepend.
  destruct (expand_iteration keys hostname topic (c :: format)) as [[t| |]|t f];
    simpl; auto.
Qed.

Lemma expand_from_prepend topic format data hostname :
  expand_from topic format data hostname
  = prepend topic (expand_topic format data hostname).
Proof.
  unfold expand_topic, expand_from.
  rewrite <- expand_loop_prepend. now rewrite app_nil_r.
Qed.

(** ** The well-known keys *)

Lemma fold_collect_key (data : data_t) (k : known_keys) :
  fold_left collect_key data k
  = {| data_type := fold_left (find_step (str "type")) data (data_type k);
       data_model := fold_left (find_step (str "model")) data (data_model k);
       data_subtype := fold_left (find_step (str "subtype")) data (data_subtype k);
       data_channel := fold_left (find_step (str "channel")) data (data_channel k);
       data_id := fold_left (find_step (str "id")) data (data_id k);
       data_protocol := fold_left (find_step (str "protocol")) data (data_protocol k) |}.
Proof.
  revert k. induction data as [|d data IH]; intros k; [now destruct k|].
  cbn [fold_left]. rewrite IH. unfold collect_key, find_step.
  repeat match goal with
  | |- context [if strcmp_eq (fst d) ?n then _ else _] =>
      let E := fresh "E" in
      destruct (strcmp_eq (fst d) n) eqn:E;
      [apply strcmp_eq_eq in E; rewrite E in *; clear E|]
  end; cbn; try reflexivity; try discriminate.
Qed.

Lemma collect_keys_find (data : data_t) :
  collect_keys data
  = {| data_type := find_field (str "type") data;
       data_model := find_field (str "model") data;
       data_subtype := find_field (str "subtype") data;
       data_channel := find_field (str "channel") data;
       data_id := find_field (str "id") data;
       data_protocol := find_field (str "protocol") data |}.
Proof. unfold collect_keys. now rewrite fold_collect_key. Qed.

Lemma resolve_record_name data hostname name tail :
  In name record_names ->
  resolve_token (collect_keys data) hostname (name ++ tail) (length name)
  = Some (Data_token (find_field name data)).
Proof.
  rewrite collect_keys_find. unfold record_names. simpl In.
  intros [<-|[<-|[<-|[<-|[<-|[<-|[]]]]]]]; reflexivity.
Qed.

Lemma resolve_hostname keys hostname tail :
  resolve_token keys hostname (str "hostname" ++ tail) (length (str "hostname"))
  = Some (String_token hostname).
Proof. reflexivity. Qed.

Lemma resolve_unknown keys hostname name tail :
  known_prefix name = false ->
  resolve_token keys hostname (name ++ tail) (length name) = None.
Proof.
  unfold known_prefix, token_names, record_names, resolve_token.
  rewrite !strncmp_eq_prefix. cbv [existsb str list_ascii_of_string]. intros H.
  repeat (apply orb_false_iff in H as [-> H]). reflexivity.
Qed.

Lemma record_name_ok name :
  In name record_names -> name_ok name = true /\ sep_ok None name = true.
Proof.
  unfold record_names. simpl In.
  intros [<-|[<-|[<-|[<-|[<-|[<-|[]]]]]]]; split; reflexivity.
Qed.

(** ** Sanitizing *)

Lemma topic_char_ok_allowed (c : ascii) : topic_char_ok c = allowed_char c.
Proof. destruct c as [[] [] [] [] [] [] [] []]; reflexivity. Qed.

Lemma mqtt_sanitize_topic_map (s : cstring) :
  mqtt_sanitize_topic s
  = map (fun c => if allowed_char c then c else "_"%char) s.
Proof.
  induction s as [|c s IH]; [reflexivity|].
  simpl. unfold sanitize_char. now rewrite topic_char_ok_allowed, IH.
Qed.

Lemma sanitize_char_safe (c : ascii) :
  let c' := sanitize_char c in
  c' <> "/"%char /\ c' <> "+"%char /\ c' <> "#"%char /\ c' <> "$"%char
  /\ is_space c' = false.
Proof.
  destruct c as [[] [] [] [] [] [] [] []]; cbv; repeat split; discriminate.
Qed.

Lemma is_record_name_In name :
  is_record_name name = true -> In name record_names.
Proof.
  unfold is_record_name. rewrite existsb_exists.
  intros (n & Hn & E). apply strcmp_eq_eq in E. now subst.
Qed.

(** A token of a record field, after literal text, at any point of the
    expansion: what it writes. *)
Lemma expand_record_token topic lit sep name dflt rest data hostname :
  literal lit = true -> sep_ok sep name = true ->
  is_record_name name = true -> default_ok dflt = true ->
  expand_from topic (lit ++ bracket sep name dflt rest) data hostname
  = expand_from
      (append_token (topic ++ lit) sep (Data_token (find_field name data)) dflt)
      rest data hostname.
Proof.
  intros Hlit Hsep Hname Hdflt. apply is_record_name_In in Hname.
  destruct (record_name_ok name Hname) as [Hok Hlow].
  rewrite expand_from_bracket by assumption.
  now rewrite resolve_record_name by assumption.
Qed.

(** ** Claims about the topic template engine

    [expand_from topic format data hostname] is the expansion of
    [format] when [topic] has been written already; [expand_topic] is
    [expand_from] with nothing written. *)

(** C1. A token with a separator, naming a field the record does not
    have and giving no default, writes nothing, neither a value nor the
    separator: the expansion goes on after it with the topic as it was
    before it. The template a[/channel] and a record without a channel
    give exactly a. *)
Theorem absent_token_writes_nothing :
  (forall topic lit sep name rest data hostname,
     literal lit = true ->
     sep_ok (Some sep) name = true ->
     is_record_name name = true ->
     find_field name data = None ->
     expand_from topic (lit ++ bracket (Some sep) name None rest) data hostname
     = expand_from (topic ++ lit) rest data hostname)
  /\ (forall data hostname,
        find_field (str "channel") data = None ->
        expand_topic (str "a[/channel]") data hostname = Some (Done (str "a"))).
Proof.
  assert (G : forall topic lit sep name rest data hostname,
     literal lit = true ->
     sep_ok (Some sep) name = true ->
     is_record_name name = true ->
     find_field name data = None ->
     expand_from topic (lit ++ bracket (Some sep) name None rest) data hostname
     = expand_from (topic ++ lit) rest data hostname).
  { intros topic lit sep name rest data hostname Hlit Hsep Hname Habsent.
    rewrite expand_record_token by easy. now rewrite Habsent. }
  split; [exact G|].
  intros data hostname Habsent. unfold expand_topic.
  change (str "a[/channel]")
    with (str "a" ++ bracket (Some "/"%char) (str "channel") None []).
  rewrite G by easy. reflexivity.
Qed.

Lemma absent_token_writes_nothing_witness :
  expand_from (str "rtl") (str "/x" ++ bracket (Some "/"%char) (str "id") None (str "/e"))
    [(str "model", DATA_STRING (str "X"))] (str "pc")
  = expand_from (str "rtl" ++ str "/x") (str "/e")
      [(str "model", DATA_STRING (str "X"))] (str "pc")
  /\ expand_topic (str "a[/channel]") [(str "model", DATA_STRING (str "X"))] (str "pc")
     = Some (Done (str "a")).
Proof.
  split.
  - apply (proj1 absent_token_writes_nothing); reflexivity.
  - apply (proj2 absent_token_writes_nothing); reflexivity.
Defined.

(** C9. A string value of the record goes into the topic through
    mqtt_sanitize_topic: every character other than A-Z, a-z, 0-9, '.'
    and '-' is replaced by '_', so that what is inserted holds no '/',
    '+', '#', '$' and no white space. *)
Theorem string_values_are_sanitized :
  (forall topic lit sep name dflt rest data hostname key s,
     literal lit = true ->
     sep_ok sep name = true ->
     is_record_name name = true ->
     default_ok dflt = true ->
     find_field name data = Some (key, DATA_STRING s) ->
     expand_from topic (lit ++ bracket sep name dflt rest) data hostname
     = expand_from (topic ++ lit ++ sep_text sep ++ mqtt_sanitize_topic s)
         rest data hostname)
  /\ (forall topic key s,
        append_topic topic (key, DATA_STRING s) = topic ++ mqtt_sanitize_topic s)
  /\ (forall s,
        mqtt_sanitize_topic s
        = map (fun c => if allowed_char c then c else "_"%char) s)
  /\ (forall s c,
        In c (mqtt_sanitize_topic s) ->
        c <> "/"%char /\ c <> "+"%char /\ c <> "#"%char /\ c <> "$"%char
        /\ is_space c = false).
Proof.
  split; [|split; [|split]].
  - intros topic lit sep name dflt rest data hostname key s
      Hlit Hsep Hname Hdflt Hs.
    rewrite expand_record_token by assumption. rewrite Hs.
    unfold append_token, append_topic. simpl snd.
    destruct sep; simpl; now rewrite <- ?app_assoc.
  - reflexivity.
  - apply mqtt_sanitize_topic_map.
  - intros s c. induction s as [|x s IH]; simpl; [easy|].
    intros [<-|H]; [apply sanitize_char_safe|now apply IH].
Qed.

Lemma string_values_are_sanitized_witness :
  expand_from (str "rtl/") (str "dev" ++ bracket (Some "/"%char) (str "model") None (str "/x"))
    [(str "model", DATA_STRING (str "Acme/T+H #1"))] (str "pc")
  = expand_from (str "rtl/" ++ str "dev" ++ sep_text (Some "/"%char)
                 ++ mqtt_sanitize_topic (str "Acme/T+H #1"))
      (str "/x") [(str "model", DATA_STRING (str "Acme/T+H #1"))] (str "pc")
  /\ mqtt_sanitize_topic (str "Acme/T+H #1") = str "Acme_T_H__1"
  /\ expand_topic (str "dev[/model]/x")
       [(str "model", DATA_STRING (str "Acme/T+H #1"))] (str "pc")
     = Some (Done (str "dev/Acme_T_H__1/x")).
Proof.
  split; [|split].
  - apply (proj1 string_values_are_sanitized) with (key := str "model");
      reflexivity.
  - reflexivity.
  - reflexivity.
Defined.

(** C10. The host name and the default text of a token go into the
    topic as they are, without passing through mqtt_sanitize_topic. *)
Theorem hostname_and_default_are_verbatim :
  (forall topic lit sep dflt rest data hostname,
     literal lit = true ->
     sep_ok sep (str "hostname") = true ->
     default_ok dflt = true ->
     expand_from topic (lit ++ bracket sep (str "hostname") dflt rest) data hostname
     = expand_from (topic ++ lit ++ sep_text sep ++ hostname) rest data hostname)
  /\ (forall topic lit sep name d rest data hostname,
        literal lit = true ->
        sep_ok sep name = true ->
        is_record_name name = true ->
        default_ok (Some d) = true ->
        find_field name data = None ->
        expand_from topic (lit ++ bracket sep name (Some d) rest) data hostname
        = expand_from (topic ++ lit ++ sep_text sep ++ d) rest data hostname).
Proof.
  split.
  - intros topic lit sep dflt rest data hostname Hlit Hsep Hdflt.
    rewrite expand_from_bracket; try easy.
    rewrite resolve_hostname.
    destruct sep; simpl; now rewrite <- ?app_assoc.
  - intros topic lit sep name d rest data hostname Hlit Hsep Hname Hd Habsent.
    rewrite expand_record_token by assumption. rewrite Habsent.
    destruct sep; simpl; now rewrite <- ?app_assoc.
Qed.

Lemma hostname_and_default_are_verbatim_witness :
  expand_from [] (str "rtl/" ++ bracket None (str "hostname") None (str "/e"))
    [] (str "my host/+#$")
  = expand_from ([] ++ str "rtl/" ++ sep_text None ++ str "my host/+#$")
      (str "/e") [] (str "my host/+#$")
  /\ expand_from [] (str "x" ++ bracket (Some "/"%char) (str "channel")
                       (Some (str "no ch/+#$")) [])
       [] (str "pc")
     = expand_from ([] ++ str "x" ++ sep_text (Some "/"%char) ++ str "no ch/+#$")
         [] [] (str "pc")
  /\ expand_topic (str "rtl/[hostname]/e[/channel:no ch/+#$]") [] (str "my host/+#$")
     = Some (Done (str "rtl/my host/+#$/e/no ch/+#$")).
Proof.
  split; [|split].
  - apply (proj1 hostname_and_default_are_verbatim); reflexivity.
  - apply (proj2 hostname_and_default_are_verbatim); reflexivity.
  - reflexivity.
Defined.

(** ** Tokens that no name accepts *)

Lemma read_until_before_stop (stop : ascii -> bool) (q : cstring) (z : ascii)
    (body : cstring) :
  stop z = true ->
  exists n r,
    read_until stop (q ++ z :: body) = (n, r ++ z :: body) /\
    (length r <= length q)%nat /\
    (r = [] \/ exists y r', r = y :: r' /\ stop y = true).
Proof.
  intros Hz. induction q as [|c q IH]; simpl.
  - rewrite Hz. exists O, []. auto.
  - destruct (stop c) eqn:E.
    + exists O, (c :: q). split; [reflexivity|]. split; [simpl; lia|eauto].
    + destruct IH as (n & r & -> & Hlen & Hr).
      exists (S n), r. split; [reflexivity|]. split; [lia|assumption].
Qed.

Lemma nonlower_not_prefix (c : ascii) (name : cstring) :
  in_range "a" "z" c = false -> known_prefix (c :: name) = false.
Proof.
  destruct c as [[] [] [] [] [] [] [] []]; intros H; try discriminate H;
    reflexivity.
Qed.

(** From anywhere inside a token that comes before a '[', the turn ends
    in an exit or goes on at a place still before that '['. *)
Lemma expand_token_before_bracket keys hostname topic ls (q body : cstring) :
  (exists why,
     expand_token keys hostname topic ls (q ++ "["%char :: body) = Stop (Exit why))
  \/ (exists t q',
        expand_token keys hostname topic ls (q ++ "["%char :: body)
        = Next t (q' ++ "["%char :: body) /\ (length q' < length q)%nat).
Proof.
  unfold expand_token.
  destruct (read_until_before_stop key_stop q "[" body eq_refl)
    as (n & r & -> & Hlen & Hr).
  destruct Hr as [->|(y & r' & -> & Hy)].
  - simpl. eauto.
  - simpl app. cbv iota. destruct (char_eqb y ":") eqn:Ecolon.
    + destruct (read_until_before_stop default_stop r' "[" body eq_refl)
        as (m & r5 & -> & Hlen5 & Hr5).
      destruct Hr5 as [->|(y' & r5' & -> & Hy')].
      * simpl. eauto.
      * simpl app. cbv iota. destruct (char_eqb y' "]"); [|eauto].
        destruct (resolve_token _ _ _ _); [|eauto].
        right. do 2 eexists. split; [reflexivity|]. simpl in *. lia.
    + destruct (char_eqb y "]"); [|eauto].
      destruct (resolve_token _ _ _ _); [|eauto].
      right. do 2 eexists. split; [reflexivity|]. simpl in *. lia.
Qed.

Lemma bracket_head sep name dflt rest :
  exists body, bracket sep name dflt rest = "["%char :: body.
Proof. unfold bracket. eauto. Qed.

Section Unknown_token.

(** A token [bracket sep name dflt rest] that is well formed and whose
    name none of the strncmp tests accepts. *)
Variables (keys : known_keys) (hostname : cstring).
Variables (sep : option ascii) (name : cstring) (dflt : option cstring).
Variable rest : cstring.
Hypothesis Hplain : plain_sep sep = true.
Hypothesis Hsep : sep_ok sep name = true.
Hypothesis Hname : name_ok name = true.
Hypothesis Hdflt : default_ok dflt = true.
Hypothesis Hunknown : known_prefix name = false.

Let Z := bracket sep name dflt rest.

(** A turn on a format that holds the token somewhere: it ends in an
    exit, or goes on before the token. *)
Lemma expand_iteration_before_unknown topic pre :
  (exists why,
     expand_iteration keys hostname topic (pre ++ Z) = Stop (Exit why))
  \/ (exists t pre',
        expand_iteration keys hostname topic (pre ++ Z) = Next t (pre' ++ Z)
        /\ (length pre' < length pre)%nat).
Proof.
  subst Z.
  destruct (copy_literal_spec pre) as (lit & r1 & _ & -> & Hlit & Hr1).
  destruct Hr1 as [->|[r2 ->]].
  - (* the token is reached as it stands *)
    left. rewrite app_nil_r, expand_iteration_bracket by assumption.
    rewrite resolve_unknown by assumption. eauto.
  - destruct r2 as [|c r3].
    + (* its '[' is taken for a separator *)
      left.
      replace ((lit ++ ["["%char]) ++ bracket sep name dflt rest)
        with (lit ++ bracket (Some "["%char) (sep_text sep ++ name) dflt rest)
        by (rewrite <- app_assoc; unfold bracket; destruct sep; reflexivity).
      rewrite expand_iteration_bracket; try easy.
      * rewrite resolve_unknown; [eauto|].
        destruct sep as [c|]; [|assumption].
        apply nonlower_not_prefix. simpl in Hplain.
        apply andb_true_iff in Hplain as [H _].
        now apply negb_true_iff in H.
      * destruct sep as [c|]; [|assumption]. simpl in *.
        apply andb_true_iff in Hplain as [_ ->]. assumption.
    + (* it comes after the start of another token *)
      destruct (bracket_head sep name dflt rest) as [body Hbody].
      rewrite Hbody in *.
      assert (Hturn :
        expand_iteration keys hostname topic
          ((lit ++ "["%char :: c :: r3) ++ "["%char :: body)
        = if negb (in_range "a" "z" c) then
            expand_token keys hostname (topic ++ lit) (Some c)
              (r3 ++ "["%char :: body)
          else
            expand_token keys hostname (topic ++ lit) None
              ((c :: r3) ++ "["%char :: body)).
      { rewrite <- app_assoc. simpl app. unfold expand_iteration.
        now rewrite copy_literal_app. }
      rewrite Hturn. clear Hturn.
      destruct (negb (in_range "a" "z" c)).
      * destruct (expand_token_before_bracket keys hostname (topic ++ lit)
                    (Some c) r3 body) as [?|(t & q' & E & Hlen)]; [auto|].
        right. exists t, q'. split; [exact E|].
        rewrite length_app. simpl. lia.
      * destruct (expand_token_before_bracket keys hostname (topic ++ lit)
                    None (c :: r3) body) as [?|(t & q' & E & Hlen)]; [auto|].
        right. exists t, q'. split; [exact E|].
        rewrite length_app. simpl in *. lia.
Qed.

Lemma before_unknown_not_nil pre : pre ++ Z <> [].
Proof.
  subst Z. destruct (bracket_head sep name dflt rest) as [b ->].
  now destruct pre.
Qed.

(** Expanding a template that holds the token ends in exit(1): by
    induction on a bound of what comes before the token. *)
Lemma expand_loop_unknown (n : nat) :
  forall pre (fuel : nat) topic,
    (length pre <= n)%nat ->
    (length (pre ++ Z) < fuel)%nat ->
    is_exit (expand_loop fuel keys hostname topic (pre ++ Z)) = true.
Proof.
  induction n as [|n IH]; intros pre fuel topic Hn Hfuel;
    (destruct fuel as [|fuel]; [lia|]);
    rewrite expand_loop_step by apply before_unknown_not_nil;
    destruct (expand_iteration_before_unknown topic pre)
      as [[why ->]|(t & pre' & -> & Hlen)]; try reflexivity.
  - lia.
  - apply IH; [lia|]. rewrite length_app in *. lia.
Qed.

End Unknown_token.

(** ** Binary64: the sum of a double and 1.2 *)

Lemma pow2_pos (k : Z) : 0 <= k -> 0 < 2 ^ k.
Proof. intros. apply Z.pow_pos_nonneg; lia. Qed.

Lemma pow2_succ (k : Z) : 0 <= k -> 2 ^ (k + 1) = 2 * 2 ^ k.
Proof. intros. rewrite Z.add_1_r. now apply Z.pow_succ_r. Qed.

Lemma pow2_le (a b : Z) : 0 <= a <= b -> 2 ^ a <= 2 ^ b.
Proof. intros. apply Z.pow_le_mono_r; lia. Qed.

Lemma pow2_lt_inv (a b : Z) : 0 <= b -> 2 ^ a < 2 ^ b -> a < b.
Proof.
  intros Hb H. destruct (Z_lt_le_dec a b) as [|Hle]; [assumption|].
  pose proof (pow2_le b a). lia.
Qed.

Lemma pow2_split (a b : Z) : 0 <= a -> 0 <= b -> 2 ^ (a + b) = 2 ^ a * 2 ^ b.
Proof. intros. now apply Z.pow_add_r. Qed.

Lemma digits_pos (p : positive) : 0 < mantissa_digits p.
Proof. unfold mantissa_digits. lia. Qed.

Lemma pow2_pred (d : Z) : 0 < d -> 2 ^ d = 2 * 2 ^ (d - 1).
Proof.
  intros. replace d with (Z.succ (d - 1)) at 1 by lia.
  apply Z.pow_succ_r. lia.
Qed.

Lemma digits_bounds (p : positive) :
  2 ^ (mantissa_digits p - 1) <= Zpos p < 2 ^ mantissa_digits p.
Proof.
  unfold mantissa_digits. induction p as [p IH|p IH|]; cbn [digits2_pos].
  - rewrite Pos2Z.inj_succ. change (Zpos p~1) with (2 * Zpos p + 1).
    replace (Z.succ (Zpos (digits2_pos p)) - 1) with (Zpos (digits2_pos p)) by lia.
    rewrite Z.pow_succ_r by lia.
    pose proof (pow2_pred (Zpos (digits2_pos p)) eq_refl) as H.
    set (a := 2 ^ (Zpos (digits2_pos p) - 1)) in *.
    set (b := 2 ^ Zpos (digits2_pos p)) in *. lia.
  - rewrite Pos2Z.inj_succ. change (Zpos p~0) with (2 * Zpos p).
    replace (Z.succ (Zpos (digits2_pos p)) - 1) with (Zpos (digits2_pos p)) by lia.
    rewrite Z.pow_succ_r by lia.
    pose proof (pow2_pred (Zpos (digits2_pos p)) eq_refl) as H.
    set (a := 2 ^ (Zpos (digits2_pos p) - 1)) in *.
    set (b := 2 ^ Zpos (digits2_pos p)) in *. lia.
  - simpl. lia.
Qed.

Lemma digits_unique (p : positive) (d : Z) :
  0 < d -> 2 ^ (d - 1) <= Zpos p < 2 ^ d -> mantissa_digits p = d.
Proof.
  intros Hd H. pose proof (digits_bounds p) as B. pose proof (digits_pos p).
  destruct (Z.lt_trichotomy (mantissa_digits p) d) as [Hlt|[Heq|Hgt]]; [|assumption|].
  - pose proof (pow2_le (mantissa_digits p) (d - 1)). lia.
  - pose proof (pow2_le d (mantissa_digits p - 1)). lia.
Qed.

Lemma digits_le (p : positive) (k : Z) : 0 <= k -> Zpos p < 2 ^ k -> mantissa_digits p <= k.
Proof.
  intros Hk H. pose proof (digits_bounds p) as B.
  assert (mantissa_digits p - 1 < k); [|lia].
  apply pow2_lt_inv; lia.
Qed.

Lemma digits_ge (p : positive) (k : Z) : 0 <= k -> 2 ^ k <= Zpos p -> k < mantissa_digits p.
Proof.
  intros Hk H. pose proof (digits_bounds p) as B. pose proof (digits_pos p).
  apply pow2_lt_inv; lia.
Qed.

Lemma digits_mono (p q : positive) : Zpos p <= Zpos q -> mantissa_digits p <= mantissa_digits q.
Proof.
  intros H. pose proof (digits_bounds p). pose proof (digits_bounds q).
  pose proof (digits_pos p). pose proof (digits_pos q).
  assert (mantissa_digits p - 1 < mantissa_digits q); [|lia].
  apply pow2_lt_inv; lia.
Qed.

Lemma digits_shift (p q : positive) (k : Z) :
  0 <= k -> Zpos q = Zpos p * 2 ^ k -> mantissa_digits q = mantissa_digits p + k.
Proof.
  intros Hk H. pose proof (digits_bounds p) as B. pose proof (digits_pos p).
  pose proof (pow2_pos k Hk).
  apply digits_unique; [lia|]. rewrite H.
  replace (mantissa_digits p + k - 1) with (mantissa_digits p - 1 + k) by lia.
  rewrite !pow2_split by lia. nia.
Qed.

Lemma div2_xO (p : positive) : Zpos p~0 / 2 = Zpos p.
Proof. symmetry. apply (Z.div_unique _ _ _ 0); lia. Qed.

Lemma div2_xI (p : positive) : Zpos p~1 / 2 = Zpos p.
Proof. symmetry. apply (Z.div_unique _ _ _ 1); lia. Qed.

Lemma mod2_xI (p : positive) : Zpos p~1 mod 2 = 1.
Proof. symmetry. apply (Z.mod_unique _ _ (Zpos p)); lia. Qed.

Lemma shr_1_inv (m k : Z) (mrs : shr_record) :
  0 <= m -> shr_inv m k mrs -> shr_inv m (k + 1) (shr_1 mrs).
Proof.
  intros Hm (Hk & Hq & Hrs). destruct mrs as [q r s]. cbn [shr_m shr_r shr_s] in *.
  pose proof (pow2_pos k Hk) as Hp.
  assert (Hdiv : m / 2 ^ (k + 1) = q / 2).
  { rewrite pow2_succ, (Z.mul_comm 2), <- Z.div_div by lia. now subst q. }
  assert (Hmod : m mod 2 ^ (k + 1) = 0 -> m mod 2 ^ k = 0 /\ q mod 2 = 0).
  { intros H0. rewrite pow2_succ in H0 by lia.
    apply Z.mod_divide in H0; [|lia]. destruct H0 as [c Hc].
    assert (Hm' : m = c * 2 * 2 ^ k) by lia.
    split.
    - rewrite Hm'. apply Z.mod_mul. lia.
    - subst q. rewrite Hm', Z.div_mul by lia. apply Z.mod_mul. lia. }
  assert (Hq0 : 0 <= q) by (subst q; apply Z.div_pos; lia).
  unfold shr_inv. split; [lia|]. rewrite Hdiv.
  destruct q as [|[p|p|]|p]; cbn [shr_1 shr_m shr_r shr_s]; try lia.
  - split; [reflexivity|]. intros H H0. destruct (Hmod H0) as [H1 _].
    now apply Hrs.
  - split; [now rewrite div2_xI|]. intros _ H0. destruct (Hmod H0) as [_ H2].
    rewrite mod2_xI in H2. discriminate.
  - split; [now rewrite div2_xO|]. intros H H0. destruct (Hmod H0) as [H1 _].
    now apply Hrs.
  - split; [reflexivity|]. intros _ H0. destruct (Hmod H0) as [_ H2].
    discriminate.
Qed.

Lemma iter_shr_inv (m : Z) (p : positive) :
  0 <= m ->
  forall k mrs, shr_inv m k mrs -> shr_inv m (k + Zpos p) (SpecFloat.iter_pos shr_1 p mrs).
Proof.
  intros Hm. induction p as [p IH|p IH|]; intros k mrs H; cbn [SpecFloat.iter_pos].
  - replace (k + Zpos p~1) with (k + 1 + Zpos p + Zpos p) by lia.
    now apply IH, IH, shr_1_inv.
  - replace (k + Zpos p~0) with (k + Zpos p + Zpos p) by lia.
    now apply IH, IH.
  - now apply shr_1_inv.
Qed.

Lemma shr_exact_spec (m e n : Z) :
  0 <= m ->
  exists mrs,
    shr (Build_shr_record m false false) e n = (mrs, e + Z.max n 0)
    /\ shr_inv m (Z.max n 0) mrs.
Proof.
  intros Hm.
  assert (H0 : shr_inv m 0 (Build_shr_record m false false)).
  { unfold shr_inv. simpl. rewrite Z.div_1_r. repeat split; [lia|discriminate]. }
  destruct n as [|p|p]; cbn [shr].
  - eexists. split; [|exact H0]. f_equal. simpl. lia.
  - eexists. split; [reflexivity|].
    replace (Z.max (Zpos p) 0) with (0 + Zpos p) by lia.
    now apply iter_shr_inv.
  - eexists. split; [|exact H0]. f_equal. simpl. lia.
Qed.

Lemma shr_nonpos (mrs : shr_record) (e n : Z) : n <= 0 -> shr mrs e n = (mrs, e).
Proof. intros H. destruct n; try reflexivity. lia. Qed.

Lemma round_nearest_even_bounds (mrs : shr_record) :
  let m2 := round_nearest_even (shr_m mrs) (loc_of_shr_record mrs) in
  shr_m mrs <= m2 <= shr_m mrs + 1
  /\ (shr_r mrs || shr_s mrs = false -> m2 = shr_m mrs).
Proof.
  destruct mrs as [q [] []]; cbn; try destruct (Z.even q);
    (split; [lia|]); intros H; try reflexivity; discriminate.
Qed.

Lemma iter_xO (p d : positive) : Zpos (Pos.iter xO p d) = Zpos p * 2 ^ Zpos d.
Proof.
  induction d as [|d IH] using Pos.peano_ind.
  - simpl. lia.
  - rewrite Pos.iter_succ, Pos2Z.inj_succ, Z.pow_succ_r by lia.
    change (Zpos (Pos.iter xO p d)~0) with (2 * Zpos (Pos.iter xO p d)).
    rewrite IH. lia.
Qed.

Lemma shl_align_spec (mx : positive) (ex ex' : Z) :
  exists mz,
    shl_align mx ex ex' = (mz, Z.min ex ex')
    /\ Zpos mz = Zpos mx * 2 ^ (ex - Z.min ex ex').
Proof.
  unfold shl_align. destruct (ex' - ex) as [|d|d] eqn:E.
  - exists mx. replace (Z.min ex ex') with ex by lia.
    rewrite Z.sub_diag. split; [reflexivity|]. simpl. lia.
  - exists mx. replace (Z.min ex ex') with ex by lia.
    rewrite Z.sub_diag. split; [reflexivity|]. simpl. lia.
  - exists (Pos.iter xO mx d). replace (Z.min ex ex') with ex' by lia.
    split; [reflexivity|]. replace (ex - ex') with (Zpos d) by lia.
    apply iter_xO.
Qed.

(** What binary_round gives for the mantissa [m] at the exponent [e]:
    with [E] the exponent of the format for this magnitude, the
    mantissa is the quotient of [m * 2^e] by [2^E] or the next integer,
    and the quotient itself when the division is exact; a mantissa that
    reaches 2^53 moves to the next exponent. *)
Lemma binary_round_spec (s : bool) (m : positive) (e : Z) :
  -1074 <= e ->
  let E := fexp64 (mantissa_digits m + e) in
  let kl := Z.max (e - E) 0 in
  let kr := Z.max (E - e) 0 in
  let mr := Zpos m * 2 ^ kl / 2 ^ kr in
  exists m2,
    mr <= m2 <= mr + 1
    /\ (Zpos m mod 2 ^ kr = 0 -> m2 = mr)
    /\ 0 < mr < 2 ^ 53
    /\ binary_round prec emax s m e
       = if m2 <? 2 ^ 53 then SF_of s m2 E else SF_of s (2 ^ 52) (E + 1).
Proof.
  intros He E kl kr mr.
  pose proof (digits_bounds m) as Bm. pose proof (digits_pos m) as Dm.
  unfold binary_round. change (fexp prec emax (Zpos (digits2_pos m) + e)) with E.
  assert (HE : E = Z.max (mantissa_digits m + e - 53) (-1074)) by reflexivity.
  assert (Hkl : kl = Z.max (e - E) 0) by reflexivity.
  assert (Hkr : kr = Z.max (E - e) 0) by reflexivity.
  clearbody kl kr. clearbody E.
  destruct (shl_align_spec m e E) as (mz & -> & Hmz).
  replace (e - Z.min e E) with kl in Hmz by lia.
  assert (Hdz : mantissa_digits mz = mantissa_digits m + kl) by (apply digits_shift; [lia|exact Hmz]).
  pose proof (digits_bounds mz) as Bz.
  assert (Hpl : 0 < 2 ^ kl) by (apply pow2_pos; lia).
  assert (Hpr : 0 < 2 ^ kr) by (apply pow2_pos; lia).
  unfold binary_round_aux, shr_fexp.
  change (Zdigits2 (Zpos mz)) with (mantissa_digits mz).
  change (fexp prec emax (mantissa_digits mz + Z.min e E))
    with (Z.max (mantissa_digits mz + Z.min e E - 53) (-1074)).
  replace (Z.max (mantissa_digits mz + Z.min e E - 53) (-1074) - Z.min e E) with kr by lia.
  cbn [shr_record_of_loc].
  destruct (shr_exact_spec (Zpos mz) (Z.min e E) kr) as (mrs & Hshr & Hinv); [lia|].
  rewrite Hshr. cbv beta iota.
  replace (Z.min e E + Z.max kr 0) with E by lia.
  replace (Z.max kr 0) with kr in Hinv by lia.
  destruct Hinv as (_ & Hq & Hrs).
  rewrite Hmz in Hq. fold mr in Hq.
  pose proof (round_nearest_even_bounds mrs) as Hround. cbv zeta in Hround.
  set (m2 := round_nearest_even (shr_m mrs) (loc_of_shr_record mrs)) in *.
  rewrite Hq in Hround. destruct Hround as [Hb Hex].
  assert (Hmr : 0 < mr < 2 ^ 53).
  { destruct (Z_le_gt_dec E e) as [Hle|Hgt].
    - assert (Hk0 : kr = 0) by lia. unfold mr. rewrite Hk0.
      change (2 ^ 0) with 1. rewrite Z.div_1_r.
      rewrite <- Hmz. split; [lia|].
      apply Z.lt_le_trans with (2 ^ mantissa_digits mz); [lia|]. apply pow2_le. lia.
    - assert (Hk0 : kl = 0) by lia.
      assert (Hkr' : kr = mantissa_digits m - 53) by lia.
      unfold mr. rewrite Hk0. change (2 ^ 0) with 1. rewrite Z.mul_1_r.
      assert (H52 : 2 ^ (mantissa_digits m - 1) = 2 ^ kr * 2 ^ 52).
      { rewrite <- pow2_split by lia. f_equal. lia. }
      assert (H53 : 2 ^ mantissa_digits m = 2 ^ kr * 2 ^ 53).
      { rewrite <- pow2_split by lia. f_equal. lia. }
      split.
      + apply Z.lt_le_trans with (2 ^ 52); [reflexivity|].
        apply Z.div_le_lower_bound; lia.
      + apply Z.div_lt_upper_bound; lia. }
  exists m2. split; [exact Hb|]. split; [|split; [exact Hmr|]].
  - intros H0. apply Hex. destruct (shr_r mrs || shr_s mrs); [|reflexivity].
    exfalso. apply Hrs; [reflexivity|]. rewrite Hmz.
    apply Z.mod_divide; [lia|]. apply Z.divide_mul_l.
    apply Z.mod_divide; [lia|exact H0].
  - assert (H2 : 0 < m2) by lia. clearbody m2.
    destruct m2 as [|p2|p2]; try lia.
    destruct (Z.ltb_spec (Zpos p2) (2 ^ 53)) as [Hlt|Hge].
    + assert (Hd2 : mantissa_digits p2 <= 53) by (apply digits_le; [lia|exact Hlt]).
      change (Zdigits2 (Zpos p2)) with (mantissa_digits p2).
      change (fexp prec emax (mantissa_digits p2 + E))
        with (Z.max (mantissa_digits p2 + E - 53) (-1074)).
      rewrite shr_nonpos by lia. reflexivity.
    + change (2 ^ 53) with 9007199254740992 in *.
      assert (Hp2 : p2 = 9007199254740992%positive) by lia.
      subst p2.
      change (Zdigits2 (Zpos 9007199254740992)) with 54.
      change (fexp prec emax (54 + E)) with (Z.max (54 + E - 53) (-1074)).
      replace (Z.max (54 + E - 53) (-1074) - E) with 1 by lia.
      reflexivity.
Qed.

Lemma SFleb_pos (mx m3 : positive) (ex e3 : Z) :
  ex < e3 \/ (ex = e3 /\ Zpos mx <= Zpos m3) ->
  SFleb (S754_finite false mx ex) (S754_finite false m3 e3) = true.
Proof.
  intros [H|[-> H]]; unfold SFleb, SFcompare.
  - now rewrite (proj2 (Z.compare_lt_iff _ _) H).
  - rewrite Z.compare_refl.
    change (Pos.compare_cont Eq mx m3) with (Pos.compare mx m3).
    destruct (Pos.compare_spec mx m3); try reflexivity. lia.
Qed.

Lemma SFleb_neg (mx m3 : positive) (ex e3 : Z) :
  e3 < ex \/ (e3 = ex /\ Zpos m3 <= Zpos mx) ->
  SFleb (S754_finite true mx ex) (S754_finite true m3 e3) = true.
Proof.
  intros [H|[-> H]]; unfold SFleb, SFcompare.
  - now rewrite (proj2 (Z.compare_gt_iff _ _) H).
  - rewrite Z.compare_refl.
    change (Pos.compare_cont Eq mx m3) with (Pos.compare mx m3).
    destruct (Pos.compare_spec mx m3); try reflexivity. lia.
Qed.

Lemma SFleb_pos_SF_of (mx : positive) (ex m3 e3 : Z) :
  0 < m3 ->
  ex < e3 \/ (ex = e3 /\ Zpos mx <= m3) ->
  SFleb (S754_finite false mx ex) (SF_of false m3 e3) = true.
Proof.
  intros H0 H. destruct m3 as [|p|p]; try lia. unfold SF_of.
  destruct (e3 <=? 971); [now apply SFleb_pos|reflexivity].
Qed.

Lemma SFleb_neg_SF_of (mx : positive) (ex m3 e3 : Z) :
  0 < m3 -> e3 <= 971 ->
  e3 < ex \/ (e3 = ex /\ m3 <= Zpos mx) ->
  SFleb (S754_finite true mx ex) (SF_of true m3 e3) = true.
Proof.
  intros H0 He H. destruct m3 as [|p|p]; try lia. unfold SF_of.
  apply Z.leb_le in He. rewrite He. now apply SFleb_neg.
Qed.

Lemma SFleb_neg_pos_SF_of (mx : positive) (ex m3 e3 : Z) :
  0 < m3 ->
  SFleb (S754_finite true mx ex) (SF_of false m3 e3) = true.
Proof.
  intros H0. destruct m3 as [|p|p]; try lia. unfold SF_of.
  now destruct (e3 <=? 971).
Qed.

(** Rounding a sum that is not below a float does not give less than
    this float. *)
Lemma round_lower (mx m : positive) (ex e : Z) :
  ex = fexp64 (mantissa_digits mx + ex) ->
  -1074 <= e <= ex ->
  Zpos mx * 2 ^ (ex - e) <= Zpos m ->
  SFleb (S754_finite false mx ex) (binary_round prec emax false m e) = true.
Proof.
  intros Hcan He Hle.
  destruct (binary_round_spec false m e) as (m2 & Hb & _ & Hmr & ->); [lia|].
  pose proof (digits_bounds mx) as Bx. pose proof (digits_bounds m) as Bm.
  pose proof (digits_pos mx) as Dx. pose proof (digits_pos m) as Dm.
  assert (Hp : 0 < 2 ^ (ex - e)) by (apply pow2_pos; lia).
  assert (Hd : mantissa_digits mx + (ex - e) <= mantissa_digits m).
  { assert (mantissa_digits mx - 1 + (ex - e) < mantissa_digits m); [|lia].
    apply pow2_lt_inv; [lia|]. rewrite pow2_split by lia. nia. }
  set (E := fexp64 (mantissa_digits m + e)) in *.
  assert (HE : E = Z.max (mantissa_digits m + e - 53) (-1074)) by reflexivity.
  unfold fexp64 in Hcan. clearbody E.
  assert (HexE : ex <= E) by lia.
  destruct (m2 <? 2 ^ 53).
  - apply SFleb_pos_SF_of; [lia|].
    destruct (Z_lt_le_dec ex E) as [Hlt|Hge]; [now left|right].
    assert (HEx : E = ex) by lia. clear HE HexE Hge. subst E. split; [reflexivity|].
    replace (Z.max (e - ex) 0) with 0 in Hb by lia.
    replace (Z.max (ex - e) 0) with (ex - e) in Hb by lia.
    change (2 ^ 0) with 1 in Hb. rewrite Z.mul_1_r in Hb.
    apply Z.le_trans with (Zpos m / 2 ^ (ex - e)); [|lia].
    apply Z.div_le_lower_bound; lia.
  - apply SFleb_pos_SF_of; [reflexivity|]. left. lia.
Qed.

(** Rounding a negative sum that is not below a negative float does
    not give less than this float. *)
Lemma round_upper (mx m : positive) (ex e : Z) :
  ex = fexp64 (mantissa_digits mx + ex) -> ex <= 971 ->
  -1074 <= e <= ex ->
  Zpos m <= Zpos mx * 2 ^ (ex - e) ->
  SFleb (S754_finite true mx ex) (binary_round prec emax true m e) = true.
Proof.
  intros Hcan Hmax He Hle.
  destruct (binary_round_spec true m e) as (m2 & Hb & Hexact & Hmr & ->); [lia|].
  pose proof (digits_bounds mx) as Bx. pose proof (digits_bounds m) as Bm.
  pose proof (digits_pos mx) as Dx. pose proof (digits_pos m) as Dm.
  assert (Hp : 0 < 2 ^ (ex - e)) by (apply pow2_pos; lia).
  assert (Hd : mantissa_digits m <= mantissa_digits mx + (ex - e)).
  { assert (mantissa_digits m - 1 < mantissa_digits mx + (ex - e)); [|lia].
    apply pow2_lt_inv; [lia|]. rewrite pow2_split by lia. nia. }
  set (E := fexp64 (mantissa_digits m + e)) in *.
  assert (HE : E = Z.max (mantissa_digits m + e - 53) (-1074)) by reflexivity.
  unfold fexp64 in Hcan. clearbody E.
  assert (HexE : E <= ex) by lia.
  assert (Hdx : mantissa_digits mx <= 53) by lia.
  assert (Hx53 : Zpos mx < 2 ^ 53).
  { apply Z.lt_le_trans with (2 ^ mantissa_digits mx); [lia|]. apply pow2_le. lia. }
  assert (Hsame : E = ex -> m2 <= Zpos mx).
  { intros ->.
    replace (Z.max (e - ex) 0) with 0 in * by lia.
    replace (Z.max (ex - e) 0) with (ex - e) in * by lia.
    change (2 ^ 0) with 1 in *. rewrite Z.mul_1_r in *.
    assert (Hq : Zpos m / 2 ^ (ex - e) <= Zpos mx)
      by (apply Z.div_le_upper_bound; lia).
    destruct (Z_lt_le_dec (Zpos m / 2 ^ (ex - e)) (Zpos mx)) as [Hlt|Hge]; [lia|].
    assert (Heq : Zpos m / 2 ^ (ex - e) = Zpos mx) by lia.
    rewrite Hexact; [lia|].
    pose proof (Z.mul_div_le (Zpos m) (2 ^ (ex - e)) Hp) as Hmd.
    rewrite Heq in Hmd.
    assert (Hm : Zpos m = Zpos mx * 2 ^ (ex - e)) by lia.
    rewrite Hm. apply Z.mod_mul. lia. }
  destruct (Z.ltb_spec m2 (2 ^ 53)) as [Hlt|Hge].
  - apply SFleb_neg_SF_of; [lia|lia|].
    destruct (Z_lt_le_dec E ex) as [Hl|Hg]; [now left|right].
    assert (HEe : E = ex) by lia. split; [exact HEe|now apply Hsame].
  - assert (HEne : E <> ex) by (intros HEe; specialize (Hsame HEe); lia).
    apply SFleb_neg_SF_of; [reflexivity|lia|].
    destruct (Z_lt_le_dec (E + 1) ex) as [Hl|Hg]; [now left|right].
    split; [lia|].
    assert (Hd53 : mantissa_digits mx = 53) by lia.
    rewrite Hd53 in Bx. exact (proj1 Bx).
Qed.

(** The sum of a double and 1.2, rounded, is not below the double. *)
Lemma SFadd_sf_1_2_ge (x : spec_float) :
  valid_binary x = true -> x <> S754_nan ->
  SFleb x (SFadd prec emax x sf_1_2) = true.
Proof.
  intros Hv Hn. destruct x as [s|s| |s mx ex].
  - now destruct s.
  - now destruct s.
  - contradiction.
  - cbn [SpecFloat.valid_binary] in Hv. unfold bounded, canonical_mantissa in Hv.
    apply andb_true_iff in Hv as [Hcan Hmax].
    apply Z.eqb_eq in Hcan. apply Z.leb_le in Hmax.
    change (Z.sub emax prec) with 971 in Hmax.
    change (fexp prec emax (Zpos (digits2_pos mx) + ex))
      with (fexp64 (mantissa_digits mx + ex)) in Hcan.
    symmetry in Hcan.
    assert (Hmin : -1074 <= ex) by (unfold fexp64 in Hcan; lia).
    unfold sf_1_2. cbn [SFadd]. cbv zeta.
    set (ez := Z.min ex (-52)).
    destruct (shl_align_spec mx ex ez) as (mx' & Hx & Hmx).
    destruct (shl_align_spec 5404319552844595 (-52) ez) as (mc' & Hc & Hmc).
    rewrite Hx, Hc. cbn [fst].
    replace (Z.min ex ez) with ez in Hmx by lia.
    destruct s; cbn [cond_Zopp].
    + destruct (Z.opp (Zpos mx') + Zpos mc') as [|p|p] eqn:Esum;
        cbn [binary_normalize].
      * reflexivity.
      * destruct (binary_round_spec false p ez) as (m2 & Hb & _ & Hmr & ->);
          [lia|].
        destruct (m2 <? 2 ^ 53); apply SFleb_neg_pos_SF_of; lia.
      * apply round_upper; [exact Hcan|exact Hmax|lia|]. lia.
    + change (Zpos mx' + Zpos mc') with (Zpos (mx' + mc')).
      cbn [binary_normalize].
      apply round_lower; [exact Hcan|lia|]. lia.
Qed.

Lemma SFcompare_trans_lt_le (t x r : spec_float) :
  SFltb t x = true -> SFleb x r = true -> SFltb t r = true.
Proof.
  unfold SFltb, SFleb.
  destruct t as [st|st| |st mt et], x as [sx|sx| |sx mx ex],
    r as [sr|sr| |sr mr er]; cbn [SFcompare];
    try discriminate; try reflexivity;
    repeat match goal with
    | s : bool |- _ => destruct s
    end; try discriminate; try reflexivity;
    change (Pos.compare_cont Eq) with Pos.compare;
    repeat match goal with
    | |- context [Z.compare ?a ?b] => destruct (Z.compare_spec a b)
    | |- context [Pos.compare ?a ?b] => destruct (Pos.compare_spec a b)
    end; cbn; try discriminate; try reflexivity; intros; lia.
Qed.

Lemma SFcompare_le_not_lt (x t : spec_float) :
  SFleb x t = true -> SFltb t x = false.
Proof.
  unfold SFltb, SFleb.
  destruct t as [st|st| |st mt et], x as [sx|sx| |sx mx ex];
    cbn [SFcompare]; try discriminate; try reflexivity;
    repeat match goal with
    | s : bool |- _ => destruct s
    end; try discriminate; try reflexivity;
    change (Pos.compare_cont Eq) with Pos.compare;
    repeat match goal with
    | |- context [Z.compare ?a ?b] => destruct (Z.compare_spec a b)
    | |- context [Pos.compare ?a ?b] => destruct (Pos.compare_spec a b)
    end; cbn; try discriminate; try reflexivity; intros; lia.
Qed.

Lemma Prim2SF_sf_1_2 : Prim2SF 1.2 = sf_1_2.
Proof. reflexivity. Qed.

(** Adding 1.2 to a double never gives less than it: a deadline set to
    now + 1.2 lies after every time that lies before now. *)
Lemma add_1_2_after (t now : float) :
  PrimFloat.ltb t now = true -> PrimFloat.ltb t (now + 1.2)%float = true.
Proof.
  rewrite !ltb_spec, add_spec, Prim2SF_sf_1_2. intros H.
  apply SFcompare_trans_lt_le with (Prim2SF now); [exact H|].
  apply SFadd_sf_1_2_ge; [apply Prim2SF_valid|].
  intros Hnan. rewrite Hnan in H. unfold SFltb in H.
  now destruct (Prim2SF t).
Qed.

(** A deadline set to now + 1.2 does not lie before now. *)
Lemma add_1_2_not_before (now : float) :
  PrimFloat.ltb (now + 1.2)%float now = false.
Proof.
  rewrite ltb_spec, add_spec, Prim2SF_sf_1_2.
  pose proof (Prim2SF_valid now) as Hv.
  destruct (Prim2SF now) as [s|s| |s m e]; [| |reflexivity|];
    (apply SFcompare_le_not_lt, SFadd_sf_1_2_ge; [exact Hv|discriminate]).
Qed.

Lemma leb_not_ltb (now t : float) :
  PrimFloat.leb now t = true -> PrimFloat.ltb t now = false.
Proof. rewrite leb_spec, ltb_spec. apply SFcompare_le_not_lt. Qed.

(** ** The in-flight list *)

(** inflight_add always asks for more than there is. *)
Lemma min_size_above (sz : nat) :
  (sz <? (if (sz <? 8)%nat then 8%nat else (sz + sz / 2)%nat))%nat = true.
Proof.
  destruct (sz <? 8)%nat eqn:E8; [exact E8|].
  apply Nat.ltb_ge in E8. apply Nat.ltb_lt.
  assert (4 <= sz / 2)%nat by (apply Nat.div_le_lower_bound; lia).
  lia.
Qed.

Lemma grown_size_enough (list : inflight_t) :
  (size list <= len list)%nat ->
  inflight_ensure_size list
    (if (size list <? 8)%nat then 8%nat else (size list + size list / 2)%nat)
    alloc_succeeds
  = ret {| elems := elems list; size := grown_size list |}.
Proof.
  intros H. unfold inflight_ensure_size, grown_size.
  apply Nat.leb_le in H. rewrite H.
  rewrite min_size_above, orb_true_r. reflexivity.
Qed.

(** inflight_add with memory at hand: the entry goes to the end. *)
Lemma inflight_add_ok list topic m msg mg_time :
  inflight_add list topic m msg mg_time alloc_succeeds
  = (Done {| elems := elems list ++ [new_entry topic m msg mg_time];
             size := grown_size list |},
     [Stderr (Log_publishing m (S (len list)))]).
Proof.
  unfold inflight_add.
  assert (E : (if (size list <=? len list)%nat then
                 inflight_ensure_size list
                   (if (size list <? 8)%nat then 8%nat
                    else (size list + size list / 2)%nat) alloc_succeeds
               else ret list)
              = ret {| elems := elems list; size := grown_size list |}).
  { destruct (size list <=? len list)%nat eqn:E.
    - apply grown_size_enough. now apply Nat.leb_le.
    - unfold grown_size. rewrite E. now destruct list. }
  rewrite E. unfold ret, bind, emit, new_entry, len. simpl.
  rewrite length_app. simpl. now rewrite Nat.add_1_r.
Qed.

Lemma find_mid_absent l m (i : nat) :
  has_mid l m = false -> find_mid l m i = None.
Proof.
  revert i. induction l as [|e l IH]; intros i; simpl; [reflexivity|].
  intros H. apply orb_false_iff in H as [-> H]. now apply IH.
Qed.

Lemma find_mid_last l e m (i : nat) :
  has_mid l m = false -> mid e = m ->
  find_mid (l ++ [e]) m i = Some (i + length l)%nat.
Proof.
  revert i. induction l as [|x l IH]; intros i; simpl; intros H He.
  - rewrite He, Z.eqb_refl. f_equal. lia.
  - apply orb_false_iff in H as [-> H]. rewrite IH by assumption.
    f_equal. lia.
Qed.

(** Removing the last element gives back the list before it was added. *)
Lemma inflight_remove_at_last l e sz :
  inflight_remove_at {| elems := l ++ [e]; size := sz |} (length l)
  = {| elems := l; size := sz |}.
Proof.
  unfold inflight_remove_at, len. simpl elems. simpl size.
  rewrite length_app. simpl length.
  replace (length l + 1 <=? length l)%nat with false
    by (symmetry; apply Nat.leb_gt; lia).
  replace (length l + 1 - 1)%nat with (length l) by lia.
  f_equal. destruct (0 <? length l)%nat.
  - rewrite lookup_app_r, Nat.sub_diag by lia. simpl.
    rewrite insert_app_r_alt, Nat.sub_diag by lia. simpl.
    now rewrite take_app_length.
  - now rewrite take_app_length.
Qed.

(** The loop of the timer, entry by entry. *)
Lemma timer_loop_sweep flags now l :
  retries_bounded l = true ->
  timer_loop flags now l
  = (Done (map (sweep_entry now) l), flat_map (sweep_trace flags now) l).
Proof.
  induction l as [|e l IH]; intros H; [reflexivity|].
  simpl in H. apply andb_true_iff in H as [He Hl].
  cbn [timer_loop map flat_map]. rewrite IH by assumption.
  unfold sweep_entry, sweep_trace, overdue, resent, resend_trace.
  destruct (PrimFloat.ltb (timeout e) now); [rewrite He|];
    unfold bind, ret, emit; simpl; now rewrite app_nil_r.
Qed.

Lemma mqtt_client_timer_disconnected ctx now mg_time :
  connected ctx = false ->
  mqtt_client_timer ctx now mg_time = (Done ctx, [Mg_set_timer (mg_time + 0.5)%float]).
Proof. intros H. unfold mqtt_client_timer. now rewrite H. Qed.

Lemma mqtt_client_timer_connected ctx now mg_time :
  connected ctx = true -> retries_bounded (elems (inflight ctx)) = true ->
  mqtt_client_timer ctx now mg_time
  = (Done (set_inflight ctx
             {| elems := map (sweep_entry now) (elems (inflight ctx));
                size := size (inflight ctx) |}),
     Mg_set_timer (mg_time + 0.5)%float
     :: flat_map (sweep_trace (publish_flags ctx) now) (elems (inflight ctx))).
Proof.
  intros Hc Hb. unfold mqtt_client_timer. rewrite Hc.
  rewrite timer_loop_sweep by assumption.
  unfold bind, ret, emit. simpl. now rewrite app_nil_r.
Qed.

(** ** Claims about the in-flight list and the client *)

(** C3, as the code has it. The sweep of the timer resends exactly the
    entries whose deadline lies strictly before now (retry counts below
    INT_MAX): each of them is sent once, its retry count goes up by one
    and its deadline becomes now + 1.2, the sum of the two doubles,
    which lies strictly after the old deadline and not before now; the
    entries whose deadline does not lie before now (it is now or later)
    are left as they are and are not sent. *)
Theorem sweep_resends_overdue_entries :
  forall flags now l,
    retries_bounded l = true ->
    timer_loop flags now l
    = (Done (map (sweep_entry now) l), flat_map (sweep_trace flags now) l)
    /\ (forall e,
          PrimFloat.ltb (timeout e) now = true ->
          sweep_entry now e = resent now e
          /\ sweep_trace flags now e
             = [Stderr (Log_resending (retries e + 1) (mid e));
                Mg_mqtt_publish (topic e) (mid e) flags (msg e)]
          /\ retries (resent now e) = retries e + 1
          /\ retries e < retries (resent now e)
          /\ timeout (resent now e) = (now + 1.2)%float
          /\ PrimFloat.ltb (timeout e) (timeout (resent now e)) = true
          /\ PrimFloat.ltb (timeout (resent now e)) now = false)
    /\ (forall e,
          PrimFloat.ltb (timeout e) now = false ->
          sweep_entry now e = e /\ sweep_trace flags now e = [])
    /\ (forall e,
          PrimFloat.leb now (timeout e) = true ->
          sweep_entry now e = e /\ sweep_trace flags now e = [])
    /\ (forall ctx mg_time,
          connected ctx = true ->
          elems (inflight ctx) = l ->
          mqtt_client_timer ctx now mg_time
          = (Done (set_inflight ctx
                     {| elems := map (sweep_entry now) l;
                        size := size (inflight ctx) |}),
             Mg_set_timer (mg_time + 0.5)%float
             :: flat_map (sweep_trace (publish_flags ctx) now) l)).
Proof.
  intros flags now l H. split; [now apply timer_loop_sweep|].
  split; [|split; [|split]].
  - intros e He. unfold sweep_entry, sweep_trace, overdue. rewrite He.
    split; [reflexivity|]. split; [reflexivity|]. split; [reflexivity|].
    split; [simpl; lia|]. split; [reflexivity|]. split.
    + now apply add_1_2_after.
    + apply add_1_2_not_before.
  - intros e He. unfold sweep_entry, sweep_trace, overdue. now rewrite He.
  - intros e He. apply leb_not_ltb in He.
    unfold sweep_entry, sweep_trace, overdue. now rewrite He.
  - intros ctx mg_time Hc <-. now apply mqtt_client_timer_connected.
Qed.

Lemma sweep_resends_overdue_entries_witness :
  let flags := {| flags_qos := 1; flags_retain := false |} in
  let a := new_entry (str "t/a") 1 (str "1") 0 in
  let b := new_entry (str "t/b") 2 (str "2") 4 in
  timer_loop flags 3 [a; b]
  = (Done [resent 3 a; b],
     [Stderr (Log_resending 1 1); Mg_mqtt_publish (str "t/a") 1 flags (str "1")]).
Proof.
  intros flags a b.
  exact (proj1 (sweep_resends_overdue_entries flags 3 [a; b] eq_refl)).
Defined.

(** C3 as stated fails: an entry whose deadline equals now is not
    resent. *)
Lemma sweep_at_deadline_resends_nothing :
  let flags := {| flags_qos := 1; flags_retain := false |} in
  let e := {| topic := str "t"; msg := str "m"; timeout := 5; retries := 0; mid := 1 |} in
  PrimFloat.leb (timeout e) 5 = true
  /\ timer_loop flags 5 [e] = (Done [e], []).
Proof. split; reflexivity. Qed.

(** C4. For a message id that the registry does not hold, adding an
    entry with it (the allocations succeeding) and then removing it
    finds it (the returned index is not negative, which is what the
    PUBACK handler tests, and no unknown message is reported) and gives
    back the elements the registry held before, so the same number of
    them; removing an id that the registry does not hold returns -1,
    which the PUBACK handler reports as unknown, and leaves the registry
    as it is. *)
Theorem add_then_acknowledge :
  (forall list topic m msg mg_time,
     has_mid (elems list) m = false ->
     exists list1 list2 trace1 trace2 idx,
       inflight_add list topic m msg mg_time alloc_succeeds = (Done list1, trace1)
       /\ inflight_remove list1 m = (Done (idx, list2), trace2)
       /\ 0 <= idx
       /\ elems list2 = elems list
       /\ len list2 = len list)
  /\ (forall ctx topic m msg mg_time,
        has_mid (elems (inflight ctx)) m = false ->
        exists list1 trace1 ctx2,
          inflight_add (inflight ctx) topic m msg mg_time alloc_succeeds
          = (Done list1, trace1)
          /\ mqtt_client_event (set_inflight ctx list1) (MG_EV_MQTT_PUBACK m)
             = (Done ctx2, [Stderr (Log_acknowledge m (len (inflight ctx)))])
          /\ elems (inflight ctx2) = elems (inflight ctx))
  /\ (forall list m',
        has_mid (elems list) m' = false ->
        inflight_remove list m' = (Done (-1, list), []))
  /\ (forall ctx m',
        has_mid (elems (inflight ctx)) m' = false ->
        mqtt_client_event ctx (MG_EV_MQTT_PUBACK m')
        = (Done ctx, [Stderr (Log_unknown_ack m')])).
Proof.
  assert (Hback : forall list topic m msg mg_time,
    has_mid (elems list) m = false ->
    inflight_remove
      {| elems := elems list ++ [new_entry topic m msg mg_time];
         size := grown_size list |} m
    = (Done (Z.of_nat (len list),
             {| elems := elems list; size := grown_size list |}),
       [Stderr (Log_acknowledge m (len list))])).
  { intros list topic m msg mg_time Hm. unfold inflight_remove. simpl elems.
    rewrite find_mid_last by easy. simpl Nat.add.
    rewrite inflight_remove_at_last. reflexivity. }
  split; [|split; [|split]].
  - intros list topic m msg mg_time Hm.
    rewrite inflight_add_ok. do 5 eexists. split; [reflexivity|].
    rewrite Hback by assumption.
    split; [reflexivity|]. split; [unfold len; lia|]. split; reflexivity.
  - intros ctx topic m msg mg_time Hm.
    rewrite inflight_add_ok. do 3 eexists. split; [reflexivity|].
    unfold mqtt_client_event. simpl inflight. rewrite Hback by assumption.
    unfold bind, ret. simpl.
    replace (0 <=? Z.of_nat (len (inflight ctx))) with true
      by (symmetry; apply Z.leb_le; lia).
    split; reflexivity.
  - intros list m' Hm. unfold inflight_remove.
    now rewrite find_mid_absent.
  - intros ctx m' Hm. unfold mqtt_client_event, inflight_remove.
    rewrite find_mid_absent by assumption.
    now destruct ctx.
Qed.

Lemma add_then_acknowledge_witness :
  let list := {| elems := [new_entry (str "t/a") 7 (str "1") 0]; size := 8 |} in
  (exists list1 list2 trace1 trace2 idx,
     inflight_add list (str "t/b") 8 (str "2") 1 alloc_succeeds = (Done list1, trace1)
     /\ inflight_remove list1 8 = (Done (idx, list2), trace2)
     /\ 0 <= idx
     /\ elems list2 = elems list
     /\ len list2 = len list)
  /\ inflight_remove list 9 = (Done (-1, list), []).
Proof.
  intros list. split.
  - apply (proj1 add_then_acknowledge). reflexivity.
  - apply (proj1 (proj2 (proj2 add_then_acknowledge))). reflexivity.
Defined.

(** What mqtt_client_publish does when the allocations succeed. *)
Lemma mqtt_client_publish_ok ctx topic str mg_time :
  let m := (message_id ctx + 1) mod 65536 in
  let l := if 0 <? qos ctx then
             {| elems := elems (inflight ctx) ++ [new_entry topic m str mg_time];
                size := grown_size (inflight ctx) |}
           else inflight ctx in
  mqtt_client_publish ctx topic str mg_time alloc_succeeds
  = (Done (set_inflight (set_message_id ctx m) l),
     (if 0 <? qos ctx then [Stderr (Log_publishing m (S (len (inflight ctx))))]
      else [])
     ++ (if connected ctx then [Mg_mqtt_publish topic m (publish_flags ctx) str]
         else [])).
Proof.
  intros m l. subst l. unfold mqtt_client_publish. simpl qos. simpl inflight.
  simpl message_id. fold m.
  destruct (0 <? qos ctx).
  - rewrite inflight_add_ok. unfold bind, ret, emit, connected. simpl.
    destruct (conn ctx) as [[[]]|]; reflexivity.
  - unfold bind, ret, emit, connected. simpl.
    destruct ctx as [[[[]]|] ? ? ? ? ? ? ?]; reflexivity.
Qed.

(** C5. A publish moves the message id on by one modulo 2^16 (from
    65535 to 0); with QoS above 0 (and memory for the entry) the message
    is put at the end of the in-flight list before anything is sent,
    connected or not; a connected client then sends it at once, a client
    that is not connected sends nothing and keeps the entry. *)
Theorem publish_contract :
  forall ctx topic str mg_time,
    exists ctx' trace,
      mqtt_client_publish ctx topic str mg_time alloc_succeeds = (Done ctx', trace)
      /\ message_id ctx' = (message_id ctx + 1) mod 65536
      /\ (message_id ctx = 65535 -> message_id ctx' = 0)
      /\ (0 < qos ctx ->
          elems (inflight ctx')
          = elems (inflight ctx)
            ++ [new_entry topic (message_id ctx') str mg_time]
          /\ trace = Stderr (Log_publishing (message_id ctx')
                              (S (len (inflight ctx)))) :: sends trace)
      /\ (qos ctx <= 0 -> inflight ctx' = inflight ctx /\ trace = sends trace)
      /\ (connected ctx = true ->
          sends trace
          = [Mg_mqtt_publish topic (message_id ctx') (publish_flags ctx) str])
      /\ (connected ctx = false -> sends trace = []).
Proof.
  intros ctx topic str mg_time. rewrite mqtt_client_publish_ok.
  do 2 eexists. split; [reflexivity|]. simpl message_id. simpl inflight.
  split; [reflexivity|]. split; [intros ->; reflexivity|].
  split; [|split; [|split]].
  - intros Hq. apply Z.ltb_lt in Hq. rewrite Hq. simpl.
    split; [reflexivity|]. now destruct (connected ctx).
  - intros Hq. apply Z.ltb_ge in Hq. rewrite Hq.
    split; [reflexivity|]. now destruct (connected ctx).
  - intros ->. now destruct (0 <? qos ctx).
  - intros ->. now destruct (0 <? qos ctx).
Qed.

Lemma publish_contract_witness :
  let ctx := {| conn := Some {| proto_handler := true |}; prev_status := 0;
                address := str "localhost:1883"; client_id := str "rtl_433-00000000";
                message_id := 65535;
                publish_flags := {| flags_qos := 1; flags_retain := false |};
                qos := 1; inflight := {| elems := []; size := 0 |} |} in
  exists ctx' trace,
    mqtt_client_publish ctx (str "t") (str "m") 0 alloc_succeeds = (Done ctx', trace)
    /\ message_id ctx' = 0
    /\ elems (inflight ctx') = [new_entry (str "t") 0 (str "m") 0]
    /\ sends trace = [Mg_mqtt_publish (str "t") 0 (publish_flags ctx) (str "m")].
Proof.
  intros ctx.
  destruct (publish_contract ctx (str "t") (str "m") 0)
    as (ctx' & trace & E & Hid & Hwrap & Hq & _ & Hc & _).
  exists ctx', trace. split; [exact E|].
  split; [exact (Hwrap eq_refl)|].
  split.
  - rewrite (proj1 (Hq eq_refl)), (Hwrap eq_refl). reflexivity.
  - rewrite (Hc eq_refl), (Hwrap eq_refl). reflexivity.
Defined.

(** C6. A publish made with QoS above 0 while the client is not
    connected is recorded and not sent; no timer sweep sends anything as
    long as the client is not connected; the MG_EV_CONNECT event with
    status 0 makes the client connected and keeps the in-flight list;
    from then on, wherever the entry stands in the list, a sweep whose
    time is not after the deadline of the entry (the double sum of the
    time of the publish and 1.2) leaves it alone, and the first sweep
    whose time is after it sends it once and leaves it with a retry
    count of 1. *)
Theorem pending_publish_resent_after_reconnect :
  forall ctx topic str t0,
    conn ctx = Some {| proto_handler := false |} -> 0 < qos ctx ->
    let m := (message_id ctx + 1) mod 65536 in
    let e := new_entry topic m str t0 in
    exists ctx1,
      mqtt_client_publish ctx topic str t0 alloc_succeeds
      = (Done ctx1, [Stderr (Log_publishing m (S (len (inflight ctx))))])
      /\ elems (inflight ctx1) = elems (inflight ctx) ++ [e]
      /\ timeout e = (t0 + 1.2)%float
      /\ connected ctx1 = false
      /\ (forall c now mg_time,
            connected c = false ->
            mqtt_client_timer c now mg_time
            = (Done c, [Mg_set_timer (mg_time + 0.5)%float]))
      /\ (exists ctx2 trace,
            mqtt_client_event ctx1 (MG_EV_CONNECT 0) = (Done ctx2, trace)
            /\ sends trace = []
            /\ connected ctx2 = true
            /\ inflight ctx2 = inflight ctx1)
      /\ (forall c before after now mg_time,
            connected c = true ->
            elems (inflight c) = before ++ e :: after ->
            retries_bounded (before ++ after) = true ->
            PrimFloat.ltb (timeout e) now = false ->
            exists c',
              mqtt_client_timer c now mg_time
              = (Done c',
                 Mg_set_timer (mg_time + 0.5)%float
                 :: flat_map (sweep_trace (publish_flags c) now) before
                 ++ flat_map (sweep_trace (publish_flags c) now) after)
              /\ connected c' = true
              /\ elems (inflight c')
                 = map (sweep_entry now) before ++ e :: map (sweep_entry now) after)
      /\ (forall c before after now mg_time,
            connected c = true ->
            elems (inflight c) = before ++ e :: after ->
            retries_bounded (before ++ after) = true ->
            PrimFloat.ltb (timeout e) now = true ->
            exists c',
              mqtt_client_timer c now mg_time
              = (Done c',
                 Mg_set_timer (mg_time + 0.5)%float
                 :: flat_map (sweep_trace (publish_flags c) now) before
                 ++ [Stderr (Log_resending 1 m);
                     Mg_mqtt_publish topic m (publish_flags c) str]
                 ++ flat_map (sweep_trace (publish_flags c) now) after)
              /\ connected c' = true
              /\ elems (inflight c')
                 = map (sweep_entry now) before
                   ++ {| topic := topic; msg := str; timeout := (now + 1.2)%float;
                         retries := 1; mid := m |}
                      :: map (sweep_entry now) after).
Proof.
  intros ctx topic str t0 Hconn Hq m e.
  assert (Hc : connected ctx = false) by (unfold connected; now rewrite Hconn).
  eexists. rewrite mqtt_client_publish_ok. fold m. fold e.
  apply Z.ltb_lt in Hq. rewrite Hq, Hc.
  split; [reflexivity|]. split; [reflexivity|]. split; [reflexivity|].
  split; [exact Hc|].
  split; [intros; now apply mqtt_client_timer_disconnected|].
  split.
  { do 2 eexists. split; [reflexivity|]. split; [reflexivity|].
    split; [|reflexivity]. unfold connected. simpl. now rewrite Hconn. }
  assert (Hsweep : forall c before after now mg_time,
    connected c = true -> elems (inflight c) = before ++ e :: after ->
    retries_bounded (before ++ after) = true ->
    mqtt_client_timer c now mg_time
    = (Done (set_inflight c
               {| elems := map (sweep_entry now) before
                           ++ sweep_entry now e :: map (sweep_entry now) after;
                  size := size (inflight c) |}),
       Mg_set_timer (mg_time + 0.5)%float
       :: flat_map (sweep_trace (publish_flags c) now) before
          ++ sweep_trace (publish_flags c) now e
          ++ flat_map (sweep_trace (publish_flags c) now) after)).
  { intros c before after now mg_time Hcc Hold Hb.
    rewrite mqtt_client_timer_connected; [|assumption|].
    - rewrite Hold, map_app, flat_map_app. reflexivity.
    - rewrite Hold. unfold retries_bounded in *.
      rewrite forallb_app in *. apply andb_true_iff in Hb as [Hb1 Hb2].
      cbn [forallb]. now rewrite Hb1, Hb2. }
  split.
  - intros c before after now mg_time Hcc Hold Hb Hnow. eexists.
    rewrite (Hsweep c before after) by assumption.
    unfold sweep_trace at 2, sweep_entry at 2, overdue.
    rewrite Hnow. split; [reflexivity|]. split; [exact Hcc|reflexivity].
  - intros c before after now mg_time Hcc Hold Hb Hnow. eexists.
    rewrite (Hsweep c before after) by assumption.
    unfold sweep_trace at 2, sweep_entry at 2, overdue.
    rewrite Hnow. split; [reflexivity|]. split; [exact Hcc|reflexivity].
Qed.

Lemma pending_publish_resent_after_reconnect_witness :
  let ctx := {| conn := Some {| proto_handler := false |}; prev_status := 0;
                address := str "localhost:1883"; client_id := str "rtl_433-00000000";
                message_id := 41;
                publish_flags := {| flags_qos := 1; flags_retain := false |};
                qos := 1; inflight := {| elems := []; size := 0 |} |} in
  exists ctx1 ctx2 trace ctx3 ctx4,
    mqtt_client_publish ctx (str "t") (str "m") 1 alloc_succeeds
    = (Done ctx1, [Stderr (Log_publishing 42 1)])
    /\ mqtt_client_timer ctx1 5 5 = (Done ctx1, [Mg_set_timer (5 + 0.5)%float])
    /\ mqtt_client_event ctx1 (MG_EV_CONNECT 0) = (Done ctx2, trace)
    /\ (1 + 1.2 =? 2.2)%float = true
    /\ mqtt_client_timer ctx2 2.2 2.2
       = (Done ctx3, [Mg_set_timer (2.2 + 0.5)%float])
    /\ elems (inflight ctx3) = [new_entry (str "t") 42 (str "m") 1]
    /\ mqtt_client_timer ctx3 2.5 2.5
       = (Done ctx4,
          [Mg_set_timer (2.5 + 0.5)%float; Stderr (Log_resending 1 42);
           Mg_mqtt_publish (str "t") 42 (publish_flags ctx3) (str "m")])
    /\ elems (inflight ctx4)
       = [{| topic := str "t"; msg := str "m"; timeout := (2.5 + 1.2)%float;
             retries := 1; mid := 42 |}].
Proof.
  intros ctx.
  destruct (pending_publish_resent_after_reconnect ctx (str "t") (str "m") 1
              eq_refl eq_refl)
    as (ctx1 & Hpub & Helems & _ & Hdis & Hidle
        & (ctx2 & trace & Hev & _ & Hcon & Hinf) & Hkeep & Hdue).
  destruct (Hkeep ctx2 [] [] 2.2%float 2.2%float Hcon)
    as (ctx3 & Htimer3 & Hcon3 & Helems3).
  { rewrite Hinf. exact Helems. }
  { reflexivity. }
  { reflexivity. }
  destruct (Hdue ctx3 [] [] 2.5%float 2.5%float Hcon3 Helems3)
    as (ctx4 & Htimer4 & _ & Helems4).
  { reflexivity. }
  { reflexivity. }
  exists ctx1, ctx2, trace, ctx3, ctx4.
  split; [exact Hpub|]. split; [exact (Hidle ctx1 5%float 5%float Hdis)|].
  split; [exact Hev|]. split; [reflexivity|].
  split; [exact Htimer3|]. split; [exact Helems3|].
  split; [exact Htimer4|exact Helems4].
Defined.

(** C7, as the code has it. When a strdup fails in inflight_add, a
    warning is printed, the entry is not stored and the function
    returns: mqtt_client_publish goes on and sends the message if the
    client is connected. When the realloc that grows the array fails,
    FATAL_REALLOC ends the process. *)
Theorem allocation_failure_in_add :
  (forall list topic m msg mg_time mem,
     ((size list <= len list)%nat -> realloc_ok mem = true) ->
     strdup_topic_ok mem && strdup_msg_ok mem = false ->
     exists list',
       inflight_add list topic m msg mg_time mem = (Done list', [Stderr Warn_strdup])
       /\ elems list' = elems list)
  /\ (forall ctx topic str mg_time mem,
        0 < qos ctx ->
        ((size (inflight ctx) <= len (inflight ctx))%nat -> realloc_ok mem = true) ->
        strdup_topic_ok mem && strdup_msg_ok mem = false ->
        exists ctx',
          mqtt_client_publish ctx topic str mg_time mem
          = (Done ctx',
             Stderr Warn_strdup
             :: (if connected ctx then
                   [Mg_mqtt_publish topic ((message_id ctx + 1) mod 65536)
                      (publish_flags ctx) str]
                 else []))
          /\ elems (inflight ctx') = elems (inflight ctx))
  /\ (forall list topic m msg mg_time mem,
        (size list <= len list)%nat -> realloc_ok mem = false ->
        inflight_add list topic m msg mg_time mem = (Exit Fatal_realloc, []))
  /\ (forall ctx topic str mg_time mem,
        0 < qos ctx ->
        (size (inflight ctx) <= len (inflight ctx))%nat ->
        realloc_ok mem = false ->
        mqtt_client_publish ctx topic str mg_time mem = (Exit Fatal_realloc, [])).
Proof.
  assert (Hgrow : forall list mem,
    ((size list <= len list)%nat -> realloc_ok mem = true) ->
    exists sz,
      (if (size list <=? len list)%nat then
         inflight_ensure_size list
           (if (size list <? 8)%nat then 8%nat
            else (size list + size list / 2)%nat) mem
       else ret list)
      = ret {| elems := elems list; size := sz |}).
  { intros list mem H. destruct (size list <=? len list)%nat eqn:E.
    - apply Nat.leb_le in E. unfold inflight_ensure_size. rewrite (H E).
      destruct (_ || _); [eauto|]. exists (size list). now destruct list.
    - exists (size list). now destruct list. }
  assert (Hfail : forall list topic m msg mg_time mem,
    (size list <= len list)%nat -> realloc_ok mem = false ->
    inflight_add list topic m msg mg_time mem = (Exit Fatal_realloc, [])).
  { intros list topic m msg mg_time mem Hfull Hre.
    unfold inflight_add, inflight_ensure_size.
    apply Nat.leb_le in Hfull as Hfull'. rewrite Hfull', Hre.
    rewrite min_size_above, orb_true_r. reflexivity. }
  assert (Hdrop : forall list topic m msg mg_time mem,
    ((size list <= len list)%nat -> realloc_ok mem = true) ->
    strdup_topic_ok mem && strdup_msg_ok mem = false ->
    exists list',
      inflight_add list topic m msg mg_time mem = (Done list', [Stderr Warn_strdup])
      /\ elems list' = elems list).
  { intros list topic m msg mg_time mem Hre Hdup.
    destruct (Hgrow list mem Hre) as [sz E].
    unfold inflight_add. rewrite E.
    destruct (strdup_topic_ok mem); [simpl in Hdup; rewrite Hdup|];
      eexists; split; reflexivity. }
  split; [exact Hdrop|]. split; [|split; [exact Hfail|]].
  - intros ctx topic str mg_time mem Hq Hre Hdup.
    destruct (Hdrop (inflight ctx) topic ((message_id ctx + 1) mod 65536)
                str mg_time mem Hre Hdup) as (list' & E & Hel).
    unfold mqtt_client_publish. simpl qos. simpl inflight. simpl message_id.
    apply Z.ltb_lt in Hq. rewrite Hq, E.
    unfold bind, ret, emit, connected. simpl.
    destruct (conn ctx) as [[[]]|]; eexists; split; try reflexivity;
      exact Hel.
  - intros ctx topic str mg_time mem Hq Hfull Hre.
    unfold mqtt_client_publish. simpl qos. simpl inflight. simpl message_id.
    apply Z.ltb_lt in Hq. rewrite Hq, Hfail by assumption. reflexivity.
Qed.

Lemma allocation_failure_in_add_witness :
  let ctx := {| conn := Some {| proto_handler := true |}; prev_status := 0;
                address := str "localhost:1883"; client_id := str "rtl_433-00000000";
                message_id := 41;
                publish_flags := {| flags_qos := 1; flags_retain := false |};
                qos := 1; inflight := {| elems := []; size := 0 |} |} in
  (exists ctx',
     mqtt_client_publish ctx (str "t") (str "m") 10
       {| realloc_ok := true; strdup_topic_ok := true; strdup_msg_ok := false |}
     = (Done ctx',
        [Stderr Warn_strdup;
         Mg_mqtt_publish (str "t") 42 (publish_flags ctx) (str "m")])
     /\ elems (inflight ctx') = [])
  /\ mqtt_client_publish ctx (str "t") (str "m") 10
       {| realloc_ok := false; strdup_topic_ok := true; strdup_msg_ok := true |}
     = (Exit Fatal_realloc, []).
Proof.
  intros ctx. split.
  - apply (proj1 (proj2 allocation_failure_in_add)); reflexivity || (simpl; lia).
  - apply (proj2 (proj2 (proj2 allocation_failure_in_add)));
      reflexivity || (simpl; lia).
Defined.

(** C7 as stated fails: when the array cannot grow the process exits. *)
Lemma realloc_failure_exits :
  inflight_add {| elems := []; size := 0 |} (str "t") 1 (str "m") 0
    {| realloc_ok := false; strdup_topic_ok := true; strdup_msg_ok := true |}
  = (Exit Fatal_realloc, []).
Proof. reflexivity. Qed.

(** ** Claims about the printer *)

Lemma strip_zeros_digits (r x : cstring) :
  r <> [] -> digits r = true ->
  strip_zeros (r ++ "."%char :: x)
  = Done (match drop_zeros r with
          | [] => ["0"%char]
          | r' => r'
          end ++ "."%char :: x).
Proof.
  induction r as [|c r IH]; [congruence|]. intros _ Hd.
  simpl in Hd. apply andb_true_iff in Hd as [Hc Hr].
  cbn [strip_zeros drop_zeros app].
  destruct (char_eqb c "0") eqn:E0.
  - destruct r as [|b r'].
    { apply char_eqb_eq in E0. subst c. reflexivity. }
    assert (Hb : char_eqb b "." = false).
    { simpl in Hr. apply andb_true_iff in Hr as [Hb _].
      destruct (char_eqb b ".") eqn:E; [|reflexivity].
      apply char_eqb_eq in E. subst b. discriminate. }
    simpl app. cbv iota. rewrite Hb. simpl negb. cbv iota.
    apply IH; [congruence|assumption].
  - reflexivity.
Qed.

(** The else branch of print_mqtt_double on a text of snprintf with a
    decimal point and digits after it. *)
Lemma double_str_fixed w data ip frac :
  use_scientific data = false ->
  snprintf_5f w data = ip ++ "."%char :: frac ->
  frac <> [] -> digits frac = true ->
  (length (ip ++ "."%char :: frac) < 20)%nat ->
  double_str w data = Done (ip ++ "."%char :: trim_frac frac).
Proof.
  intros Hsci Htext Hne Hd Hlen. unfold double_str. rewrite Hsci, Htext.
  apply Nat.ltb_lt in Hlen. rewrite Hlen.
  rewrite rev_app_distr. simpl rev. rewrite <- app_assoc. simpl app.
  rewrite strip_zeros_digits.
  - unfold trim_frac. destruct frac as [|c frac]; [congruence|].
    destruct (drop_zeros (rev (c :: frac))) as [|y r'];
      rewrite rev_app_distr; simpl rev; rewrite ?rev_involutive;
      rewrite <- ?app_assoc; reflexivity.
  - intros E. apply (f_equal (@rev ascii)) in E.
    rewrite rev_involutive in E. simpl in E. congruence.
  - unfold digits in *. rewrite forallb_forall in *.
    intros c Hc. apply Hd. now apply in_rev.
Qed.

(** C8, as the code has it, for doubles that are not negative. A double
    above 1e7 or below 1e-4 is published as snprintf's "%g" text; a
    double from 1e-4 to 1e7, both included, is published as the "%.5f"
    text without its trailing zeros, one digit after the decimal point
    being kept at least. 3.14 gives 3.14; 0.00001 and 12345678 go through
    "%g"; the integer 42 gives 42. *)
Theorem double_payload_rendering :
  (forall w data,
     PrimFloat.leb 0 data = true ->
     PrimFloat.ltb 1e7 data = true \/ PrimFloat.ltb data 1e-4 = true ->
     double_str w data = Done (take 19 (snprintf_g w data)))
  /\ (forall w data ip c frac,
        PrimFloat.leb 0 data = true ->
        PrimFloat.ltb 1e7 data = false ->
        PrimFloat.ltb data 1e-4 = false ->
        snprintf_5f w data = ip ++ "."%char :: c :: frac ->
        digits (c :: frac) = true ->
        (length (ip ++ "."%char :: c :: frac) < 20)%nat ->
        double_str w data = Done (ip ++ "."%char :: trim_frac (c :: frac))
        /\ (1 <= length (trim_frac (c :: frac)))%nat)
  /\ (forall w mqtt data s,
        double_str w data = Done s ->
        print_mqtt_double w mqtt data = print_mqtt_string w mqtt s)
  /\ (forall w,
        snprintf_5f w 3.14 = str "3.14000" ->
        double_str w 3.14 = Done (str "3.14"))
  /\ (forall w, double_str w 1e-5 = Done (take 19 (snprintf_g w 1e-5)))
  /\ (forall w, double_str w 12345678 = Done (take 19 (snprintf_g w 12345678)))
  /\ (forall w mqtt,
        print_mqtt_int w mqtt 42 = print_mqtt_string w mqtt (str "42")).
Proof.
  split; [|split; [|split; [|split; [|split; [|split]]]]].
  - intros w data _ H. unfold double_str, use_scientific.
    destruct H as [-> | ->]; [reflexivity|]. now rewrite orb_true_r.
  - intros w data ip c frac _ Hbig Hsmall Htext Hd Hlen. split.
    + apply double_str_fixed; try easy.
      unfold use_scientific. now rewrite Hbig, Hsmall.
    + unfold trim_frac. destruct (drop_zeros (rev (c :: frac))) as [|y r'].
      * simpl. lia.
      * rewrite length_rev. simpl. lia.
  - intros w mqtt data s H. unfold print_mqtt_double. now rewrite H.
  - intros w H.
    apply (double_str_fixed w 3.14 (str "3") (str "14000"));
      [reflexivity|exact H|discriminate|reflexivity|simpl; lia].
  - reflexivity.
  - reflexivity.
  - reflexivity.
Qed.

Lemma double_payload_rendering_witness :
  double_str example_extern 12345678
  = Done (take 19 (snprintf_g example_extern 12345678))
  /\ double_str example_extern 3.14 = Done (str "3" ++ "."%char :: trim_frac (str "14000"))
  /\ double_str example_extern 3.14 = Done (str "3.14").
Proof.
  split; [|split].
  - apply (proj1 double_payload_rendering); [reflexivity|left; reflexivity].
  - apply (proj1 (proj2 double_payload_rendering) example_extern 3.14%float
             (str "3") "1"%char (str "4000")); try reflexivity.
    simpl. lia.
  - apply (proj1 (proj2 (proj2 (proj2 double_payload_rendering)))).
    reflexivity.
Defined.

(** The test is on the value, not on its magnitude: a negative double
    takes the "%g" branch whatever its size. *)
Example negative_double_takes_g :
  use_scientific (-5) = true /\ use_scientific (-0.5) = true
  /\ use_scientific 5 = false.
Proof. repeat split. Qed.

(** C8 as stated fails: 1e7 has a magnitude of 1e7 or more and is
    published in fixed point. *)
Lemma ten_million_is_fixed_point :
  PrimFloat.leb 1e7 (PrimFloat.abs 1e7) = true
  /\ use_scientific 1e7 = false
  /\ double_str example_extern 1e7 = Done (str "10000000.0").
Proof. repeat split. Qed.

Lemma bind_template_error {A B : Type} (m : M A) (f : A -> M B) :
  template_error (fst m) = false ->
  (forall a, template_error (fst (f a)) = false) ->
  template_error (fst (bind m f)) = false.
Proof.
  intros Hm Hf. destruct m as [[a|why|] t]; simpl in *; try assumption.
  specialize (Hf a). now destruct (f a).
Qed.

Lemma mqtt_topic_default_template_error w topic base suffix :
  template_error (fst (mqtt_topic_default w topic base suffix)) = false.
Proof. unfold mqtt_topic_default. now destruct (strdup_topic_ok (mem w)). Qed.

Lemma create_option_template_error w base_topic st kv :
  template_error (fst (create_option w base_topic st kv)) = false.
Proof.
  unfold create_option. destruct (fst kv); [reflexivity|].
  repeat match goal with
  | |- context [if ?b then _ else _] => destruct b
  end; try reflexivity;
    (apply bind_template_error;
     [apply mqtt_topic_default_template_error|reflexivity]).
Qed.

Lemma create_options_template_error w base_topic st opts :
  template_error (fst (create_options w base_topic st opts)) = false.
Proof.
  revert st. induction opts as [|kv opts IH]; intros st; [reflexivity|].
  simpl. apply bind_template_error; [apply create_option_template_error|].
  intros a. apply IH.
Qed.

Lemma mqtt_client_init_template_error w host port client_id retain qos :
  template_error (fst (mqtt_client_init w host port client_id retain qos)) = false.
Proof.
  unfold mqtt_client_init. destruct (malloc_ok w); [|reflexivity].
  destruct (connect_ok w), (0 <? qos); reflexivity.
Qed.

(** Creating the output never ends in an error of expand_topic. *)
Lemma create_template_error w gethostname host port opts dev_hint :
  template_error
    (fst (data_output_mqtt_create w gethostname host port opts dev_hint)) = false.
Proof.
  unfold data_output_mqtt_create. destruct (malloc_ok w); [|reflexivity].
  simpl negb. cbv iota.
  apply bind_template_error; [apply create_options_template_error|].
  intros st. apply bind_template_error.
  - destruct (c_devices st), (c_events st), (c_states st); try reflexivity.
    repeat (apply bind_template_error;
            [apply mqtt_topic_default_template_error|intros ?]).
    reflexivity.
  - intros st'. apply bind_template_error;
      [apply mqtt_client_init_template_error|reflexivity].
Qed.

Lemma expand_topic_M_exit format data hostname :
  is_exit (expand_topic format data hostname) = true ->
  exists why, expand_topic_M format data hostname = (Exit why, []).
Proof.
  unfold expand_topic_M.
  destruct (expand_topic format data hostname) as [[t|why|]|]; try discriminate.
  eauto.
Qed.

(** A template in which, somewhere, a token stands that no name
    accepts. *)
Lemma expand_topic_unknown pre sep name dflt rest data hostname :
  plain_sep sep = true -> sep_ok sep name = true ->
  name_ok name = true -> default_ok dflt = true ->
  known_prefix name = false ->
  is_exit (expand_topic (pre ++ bracket sep name dflt rest) data hostname) = true.
Proof.
  intros. unfold expand_topic, expand_from.
  apply (expand_loop_unknown _ _ sep name dflt rest) with (n := length pre);
    try assumption; lia.
Qed.

Lemma create_option_events w base_topic st format :
  strdup_topic_ok (mem w) = true ->
  create_option w base_topic st (str "events", Some format)
  = ret {| retain := retain st; qos_opt := qos_opt st;
           c_devices := c_devices st; c_events := Some format;
           c_states := c_states st |}.
Proof.
  intros H. unfold create_option, mqtt_topic_default. cbn. rewrite H.
  reflexivity.
Qed.



